(** * FastPitch feature extraction ([extract_mels.py]): alignment and
      pitch-target derivation

    A shallow embedding of the pure parts of [extract_mels.py] and of the
    control flow of [main] that decides how durations, pitch vectors and
    trimmed arrays are produced.

    Conventions.
    - Python integers, tensor lengths and frame counts are [Z]; [//] and [%]
      are [Z.div] and [Z.modulo], which round like Python's (towards minus
      infinity, sign of the divisor).
    - Times and attention weights are floats in the source.  Where only
      order, sums, means and ceilings matter they are embedded as exact
      rationals [Q], the pitch track that [calculate_pitch] averages
      included; in the normaliser, which takes a square root, pitch values
      are reals [R].  Rounding error is outside the model.
    - A Python exception is a value of [exn]; code that may raise returns a
      [result].  A local name that may be read before it is bound carries an
      [option]: [None] is "unbound". *)

From Stdlib Require Import ZArith List Bool Lia String Ascii.
From Stdlib Require Import QArith Qround.
From Stdlib Require Import Reals Lra.
Import ListNotations.

Local Open Scope string_scope.
Local Open Scope list_scope.
Local Open Scope Z_scope.

(** ** Exceptions and the error monad *)

Inductive exn : Type :=
| UnboundLocalError (name : string)
| IndexError
| KeyError (key : string)
| ZeroDivisionError
| ValueError (msg : string)
| AssertionError (msg : string)
| OverflowError (msg : string)
| RuntimeError (msg : string).

Inductive result (A : Type) : Type :=
| Ok (a : A)
| Raise (e : exn).

Arguments Ok {A} a.
Arguments Raise {A} e.

Definition bind {A B : Type} (c : result A) (k : A -> result B) : result B :=
  match c with
  | Ok a => k a
  | Raise e => Raise e
  end.

Notation "x <- c ;; k" := (bind c (fun x => k))
  (at level 61, c at next level, right associativity).
Notation "' p <- c ;; k" := (bind c (fun p => k))
  (at level 61, p pattern, c at next level, right associativity).

Definition assert_ (b : bool) (msg : string) : result unit :=
  if b then Ok tt else Raise (AssertionError msg).

Definition is_ok {A : Type} (c : result A) : bool :=
  match c with Ok _ => true | Raise _ => false end.

(** ** Python list helpers *)

(** [sum(l)] *)
Definition sum (l : list Z) : Z := fold_right Z.add 0 l.

Definition len {A : Type} (l : list A) : Z := Z.of_nat (List.length l).

(** A slice bound [i] of a sequence of length [n], as Python clamps it. *)
Definition norm_index (n i : Z) : Z :=
  if i <? 0 then Z.max 0 (n + i) else Z.min i n.

(** [l[start:stop]]; [None] is an omitted bound. *)
Definition py_slice {A : Type} (start stop : option Z) (l : list A) : list A :=
  let n := len l in
  let a := match start with None => 0 | Some i => norm_index n i end in
  let b := match stop with None => n | Some i => norm_index n i end in
  firstn (Z.to_nat (b - a)) (skipn (Z.to_nat a) l).

(** [l[:stop] = v] on an array: every selected cell receives [v]. *)
Definition assign_prefix (stop : Z) (v : Z) (l : list Z) : list Z :=
  let a := Z.to_nat (norm_index (len l) stop) in
  repeat v a ++ skipn a l.

(** [l[-1] += d] *)
Definition add_to_last (l : list Z) (d : Z) : result (list Z) :=
  match l with
  | [] => Raise IndexError
  | _ :: _ => Ok (removelast l ++ [last l 0 + d])
  end.

(** ** ChunkSplitter: [dur_chunk_sizes] *)

(** What a 32-bit cell holds, and the 64-bit accumulator of [sum()], which
    wraps around. *)
Definition fits_int32 (z : Z) : bool :=
  (- 2 ^ 31 <=? z) && (z <=? 2 ^ 31 - 1).

Definition wrap_int64 (z : Z) : Z := (z + 2 ^ 63) mod 2 ^ 64 - 2 ^ 63.

(** [dur_chunk_sizes(n, ary)] on Python integers.  The cells of
    [np.ones((ary,), dtype=np.int32)] have 32 bits: NumPy casts the quotient
    and the value assigned to the first cells to that type and refuses a
    Python integer that does not fit.  (NumPy before 2.0 widens the cells
    where this model raises; for [n = 2 ** 63] it then fails the assertion,
    the sum having wrapped around.)  [ret.sum()] adds the cells up in 64
    bits. *)
Definition dur_chunk_sizes (n ary : Z) : result (list Z) :=
  if ary <? 0 then Raise (ValueError "negative dimensions are not allowed")
  else if ary =? 0 then Raise ZeroDivisionError
  else if negb (fits_int32 (n / ary)) || negb (fits_int32 (n / ary + 1))
  then Raise (OverflowError "Python integer out of bounds for int32")
  else
    let ret := repeat (n / ary) (Z.to_nat ary) in
    let ret := assign_prefix (n mod ary) (n / ary + 1) ret in
    _ <- assert_ (wrap_int64 (sum ret) =? n) "" ;;
    Ok ret.

(** The same function on an entry [n] of a 64-bit array, which is how
    [calculate_pitch] calls it with [ary = 3]: in the product with a 64-bit
    scalar the cells take the width that holds the quotient, so the parts
    and their sum, which is [n], are computed without overflow. *)
Definition dur_chunk_sizes_int64 (n ary : Z) : result (list Z) :=
  if ary <? 0 then Raise (ValueError "negative dimensions are not allowed")
  else if ary =? 0 then Raise ZeroDivisionError
  else
    let ret := repeat (n / ary) (Z.to_nat ary) in
    let ret := assign_prefix (n mod ary) (n / ary + 1) ret in
    _ <- assert_ (sum ret =? n) "" ;;
    Ok ret.

(** Ceiling of [n / k], for stating the tie-break rule. *)
Definition ceil_div (n k : Z) : Z := - ((- n) / k).

(** ** RunLengthEncoder: [run_length_encode] *)

Section RunLength.
Context {A : Type}.
Variable eqb : A -> A -> bool.

(** The loop's variables; [u1] is unbound until the body has run once. *)
Record rle_state : Type := mk_rle {
  run_lengths : list (A * Z);
  dur : Z;
  u1 : option A
}.

Definition rle_step (st : rle_state) (p : A * A) : rle_state :=
  let '(a, b) := p in
  if eqb b a
  then mk_rle (run_lengths st) (dur st + 1) (Some b)
  else mk_rle (run_lengths st ++ [(a, dur st)]) 1 (Some b).

Definition rle_loop (symbols : list A) : rle_state :=
  fold_left rle_step (combine symbols (tl symbols)) (mk_rle [] 1 None).

Definition run_length_encode (symbols : list A) : result (list (A * Z)) :=
  let st := rle_loop symbols in
  match u1 st with
  | None => Raise (UnboundLocalError "u1")
  | Some u => Ok (run_lengths st ++ [(u, dur st)])
  end.

(** The sequence a list of runs stands for. *)
Definition expand (rl : list (A * Z)) : list A :=
  flat_map (fun p => repeat (fst p) (Z.to_nat (snd p))) rl.
End RunLength.

(** Neighbouring runs carry different symbols. *)
Fixpoint runs_distinct {A : Type} (rl : list (A * Z)) : Prop :=
  match rl with
  | p :: (q :: _) as r => fst p <> fst q /\ runs_distinct r
  | _ => True
  end.

(** ** DurationExtractor, unit-run-length strategy *)

(** What [DLLogger.log] receives when lengths disagree. *)
Record mismatch_log : Type := mk_mismatch {
  log_fname : string;
  log_mels : Z;
  log_durs : Z
}.

Record unit_out : Type := mk_unit_out {
  uo_units : list Z;
  uo_durs : list Z;
  uo_log : list mismatch_log
}.

Definition unit_durations (fname : string) (text : list Z) (mel_len : Z)
  : result unit_out :=
  rle_text <- run_length_encode Z.eqb text ;;
  let units := map fst rle_text in
  let durs := map snd rle_text in
  let total_dur := sum durs in
  '(durs, log) <-
    (if negb (total_dur =? mel_len) then
       let dur_diff := mel_len - total_dur in
       durs' <- add_to_last durs dur_diff ;;
       Ok (durs',
           if negb (dur_diff =? 1)
           then [mk_mismatch fname mel_len total_dur]
           else [])
     else Ok (durs, [])) ;;
  _ <- assert_ (sum durs =? mel_len) "Length mismatch" ;;
  Ok (mk_unit_out units durs log).

(** ** AlignmentFileParser: [parse_textgrid] *)

(** An interval of a [tgt] tier. *)
Record interval : Type := mk_interval {
  start_time : Q;
  end_time : Q;
  text : string
}.

Definition sil_phones : list string := ["sil"; "sp"; "spn"; ""].

(** [p in l] on lists of strings *)
Definition str_in (p : string) (l : list string) : bool :=
  existsb (String.eqb p) l.

(** [np.ceil(t * sampling_rate / hop_length)] in exact arithmetic.  The
    interpreter rounds the product and the quotient to double precision
    first, which can give one frame more; see [np_ceil_frame] below. *)
Definition frame_of (t : Q) (sampling_rate hop_length : Z) : Z :=
  Qceiling (t * inject_Z sampling_rate / inject_Z hop_length).

Fixpoint enumerate_from {A : Type} (i : Z) (l : list A) : list (Z * A) :=
  match l with
  | [] => []
  | x :: r => (i, x) :: enumerate_from (i + 1) r
  end.

Definition enumerate {A : Type} (l : list A) : list (Z * A) :=
  enumerate_from 0 l.

(** One turn of the loop over [enumerate(tier._objects)]. *)
Definition textgrid_step (n sampling_rate hop_length : Z)
    (st : list string * list Z) (it : Z * interval) : list string * list Z :=
  let '(phones, durations) := st in
  let '(i, t) := it in
  let s := start_time t in
  let e := end_time t in
  let p := text t in
  let phones :=
    if negb (str_in p sil_phones) then phones ++ [p]
    else if (i =? 0) || (i =? n - 1) then phones ++ ["sil"]
    else phones ++ ["sp"] in
  (phones,
   durations ++ [frame_of e sampling_rate hop_length
                 - frame_of s sampling_rate hop_length]).

(** [tier[0]] and [tier[-1]] raise on an empty tier.  The division by
    [hop_length] is reached in the first turn of the loop, which a non-empty
    tier always takes. *)
Definition parse_textgrid (tier : list interval) (sampling_rate hop_length : Z)
  : result (list string * list Z * Q * Q) :=
  match tier with
  | [] => Raise IndexError
  | t0 :: _ =>
      let start := start_time t0 in
      let end_ := end_time (last tier t0) in
      if hop_length =? 0 then Raise ZeroDivisionError
      else
        let '(phones, durations) :=
          fold_left (textgrid_step (len tier) sampling_rate hop_length)
                    (enumerate tier) ([], []) in
        Ok (phones, durations, start, end_)
  end.

(** The labelling rule of the specification, for an interval at position [i]
    of a tier of [n] intervals. *)
Definition relabel (n i : Z) (p : string) : string :=
  if str_in p sil_phones
  then (if (i =? 0) || (i =? n - 1) then "sil" else "sp")
  else p.

(** A tier without gaps or overlaps: every interval starts at the time at
    which the one before it ends. *)
Fixpoint contiguous (tier : list interval) : Prop :=
  match tier with
  | t1 :: (t2 :: _) as r => start_time t2 = end_time t1 /\ contiguous r
  | _ => True
  end.

(** ** DurationExtractor, alignment-file strategy *)

Definition textgrid_durations (tier : list interval)
    (sampling_rate hop_length mel_len : Z)
  : result (list string * list Z * Q * Q) :=
  '(phones, durs, start, end_) <- parse_textgrid tier sampling_rate hop_length ;;
  _ <- assert_ (sum durs =? mel_len) "Length mismatch" ;;
  Ok (phones, durs, start, end_).

(** ** The parser and the alignment-file strategy in double precision *)

Section FrameArithmetic.

(** [np.ceil(t * sampling_rate / hop_length)] as the interpreter computes
    it: the product and the quotient are rounded to double precision before
    the ceiling is taken, which can give one frame more than [frame_of], its
    value in exact arithmetic.  A time is still a rational, every double
    being one.  What is proved about the functions of this section holds
    however the rounding falls. *)
Variable np_ceil_frame : Q -> Z -> Z -> Z.

Definition textgrid_step_fl (n sampling_rate hop_length : Z)
    (st : list string * list Z) (it : Z * interval) : list string * list Z :=
  let '(phones, durations) := st in
  let '(i, t) := it in
  let s := start_time t in
  let e := end_time t in
  let p := text t in
  let phones :=
    if negb (str_in p sil_phones) then phones ++ [p]
    else if (i =? 0) || (i =? n - 1) then phones ++ ["sil"]
    else phones ++ ["sp"] in
  (phones,
   durations ++ [np_ceil_frame e sampling_rate hop_length
                 - np_ceil_frame s sampling_rate hop_length]).

Definition parse_textgrid_fl (tier : list interval)
    (sampling_rate hop_length : Z)
  : result (list string * list Z * Q * Q) :=
  match tier with
  | [] => Raise IndexError
  | t0 :: _ =>
      let start := start_time t0 in
      let end_ := end_time (last tier t0) in
      if hop_length =? 0 then Raise ZeroDivisionError
      else
        let '(phones, durations) :=
          fold_left (textgrid_step_fl (len tier) sampling_rate hop_length)
                    (enumerate tier) ([], []) in
        Ok (phones, durations, start, end_)
  end.

Definition textgrid_durations_fl (tier : list interval)
    (sampling_rate hop_length mel_len : Z)
  : result (list string * list Z * Q * Q) :=
  '(phones, durs, start, end_) <-
    parse_textgrid_fl tier sampling_rate hop_length ;;
  _ <- assert_ (sum durs =? mel_len) "Length mismatch" ;;
  Ok (phones, durs, start, end_).

End FrameArithmetic.

(** ** DurationExtractor, attention strategy *)

Definition Qltb (x y : Q) : bool := negb (Qle_bool y x).

(** [torch.argmax] along one row: the index of the first largest entry. *)
Fixpoint argmax_from (best_i : Z) (best : Q) (i : Z) (row : list Q) : Z :=
  match row with
  | [] => best_i
  | x :: r =>
      if Qltb best x then argmax_from i x (i + 1) r
      else argmax_from best_i best (i + 1) r
  end.

Definition argmax (row : list Q) : result Z :=
  match row with
  | [] => Raise IndexError
  | x :: r => Ok (argmax_from 0 x 1 r)
  end.

Fixpoint mapM {A B : Type} (f : A -> result B) (l : list A) : result (list B) :=
  match l with
  | [] => Ok []
  | x :: r => y <- f x ;; ys <- mapM f r ;; Ok (y :: ys)
  end.

(** The bin of [torch.histc] that receives [x], for [bins] bins of equal
    width on [[mn, mx]]; values outside the range are not counted and the
    right edge belongs to the last bin. *)
Definition histc_bin (bins mn mx x : Z) : option Z :=
  if (x <? mn) || (mx <? x) then None
  else
    let pos := ((x - mn) * bins) / (mx - mn) in
    Some (if pos =? bins then pos - 1 else pos).

Definition count_bin (bins mn mx : Z) (xs : list Z) (b : Z) : Z :=
  len (filter (fun x => match histc_bin bins mn mx x with
                        | Some c => c =? b
                        | None => false
                        end) xs).

Definition list_min (xs : list Z) : Z :=
  match xs with [] => 0 | x :: r => fold_left Z.min r x end.

Definition list_max (xs : list Z) : Z :=
  match xs with [] => 0 | x :: r => fold_left Z.max r x end.

(** Where the tensors live: [torch.device('cuda' if args.cuda else 'cpu')]. *)
Inductive device : Type :=
| Cpu
| Cuda.

Definition device_of (cuda : bool) : device := if cuda then Cuda else Cpu.

(** The kernel of [torch.histc] for integer tensors, which only the GPU
    has: equal bounds are replaced by the extrema of the data, and a range
    that is still empty is widened by one on each side. *)
Definition histc_cuda (xs : list Z) (bins mn mx : Z) : result (list Z) :=
  if bins <=? 0 then Raise (ValueError "bins must be > 0")
  else
    let '(mn, mx) :=
      if (mn =? mx) && negb (len xs =? 0)
      then (list_min xs, list_max xs) else (mn, mx) in
    let '(mn, mx) := if mn =? mx then (mn - 1, mx + 1) else (mn, mx) in
    Ok (map (fun b => count_bin bins mn mx xs (Z.of_nat b))
            (seq 0 (Z.to_nat bins))).

(** [torch.histc(xs, bins=bins, min=mn, max=mx)] on the 64-bit integer
    tensor that [torch.argmax] returns.  On the CPU the call is refused for
    this element type. *)
Definition histc (dev : device) (xs : list Z) (bins mn mx : Z)
  : result (list Z) :=
  match dev with
  | Cpu => Raise (RuntimeError "histogram_cpu not implemented for Long")
  | Cuda => histc_cuda xs bins mn mx
  end.

(** The body of the loop over [alignments] under [--extract-durations];
    [ali] is the padded matrix of one utterance, one row per frame, on the
    device of the model. *)
Definition attention_durations (dev : device) (ali : list (list Q))
    (mel_len text_len : Z) : result (list Z) :=
  let ali := map (py_slice None (Some text_len))
                 (py_slice None (Some mel_len) ali) in
  idx <- mapM argmax ali ;;
  histc dev idx text_len 0 (text_len - 1).

(** A row with weight 1 on symbol [i] and 0 elsewhere. *)
Definition one_hot (T i : nat) : list Q :=
  map (fun j => if Nat.eqb j i then 1%Q else 0%Q) (seq 0 T).

(** The attention matrix with one-hot rows that realises [durs]: symbol [i]
    holds [durs[i]] consecutive frames. *)
Definition one_hot_alignment (durs : list nat) : list (list Q) :=
  let T := List.length durs in
  List.concat (map (fun p => repeat (one_hot T (fst p)) (snd p))
              (combine (seq 0 T) durs)).

(** ** Start-up checks of [main] *)

Record args : Type := mk_args {
  extract_durations : bool;
  extract_durs_from_textgrids : bool;
  extract_durs_from_unit_sequences : bool;
  extract_pitch_mel : bool;
  extract_pitch_char : bool;
  extract_pitch_trichar : bool;
  trim_silence : option Q;
  sampling_rate : Z;
  hop_length : Z
}.

Definition any_durations (a : args) : bool :=
  extract_durations a || extract_durs_from_textgrids a
  || extract_durs_from_unit_sequences a.

(** [main] up to the first use of the data loader. *)
Definition startup (a : args) (unk_args : list string) : result unit :=
  if 0 <? len unk_args then Raise (ValueError "Invalid options")
  else if extract_pitch_char a
  then assert_ (any_durations a) "Durations required for pitch extraction"
  else Ok tt.

(** ** SilenceTrimmer: the [trim_silence] step of a batch *)

(** [np.where(p(l))[0]] *)
Fixpoint np_where_from {A : Type} (p : A -> bool) (i : nat) (l : list A)
  : list nat :=
  match l with
  | [] => []
  | x :: r =>
      if p x then i :: np_where_from p (S i) r else np_where_from p (S i) r
  end.

Definition np_where {A : Type} (p : A -> bool) (l : list A) : list nat :=
  np_where_from p 0 l.

(** [l[idx]] for an index array *)
Definition take_idx (l : list Z) (idx : list nat) : result (list Z) :=
  mapM (fun i => match nth_error l i with
                 | Some d => Ok d
                 | None => Raise IndexError
                 end) idx.

Fixpoint set_nth {A : Type} (i : nat) (v : A) (l : list A) : list A :=
  match l, i with
  | [], _ => []
  | _ :: r, O => v :: r
  | x :: r, S i' => x :: set_nth i' v r
  end.

(** [l.put(idx, src)], out of place *)
Fixpoint put (l : list Z) (idx : list nat) (src : list Z) : list Z :=
  match idx, src with
  | i :: idx', s :: src' => put (set_nth i s l) idx' src'
  | _, _ => l
  end.

Fixpoint map2 {A B C : Type} (f : A -> B -> C) (l : list A) (m : list B)
  : list C :=
  match l, m with
  | x :: l', y :: m' => f x y :: map2 f l' m'
  | _, _ => []
  end.

(** [l[mask]] for a boolean mask, which must be as long as [l]. *)
Definition mask_select {A : Type} (mask : list bool) (l : list A)
  : result (list A) :=
  if len mask =? len l
  then Ok (map snd (filter fst (combine mask l)))
  else Raise IndexError.

(** [np.round]: to the nearest integer, halves to the even neighbour. *)
Definition np_round (q : Q) : Z :=
  let f := Qfloor q in
  let r := (q - inject_Z f)%Q in
  if Qltb r (1 # 2) then f
  else if Qltb (1 # 2) r then f + 1
  else if Z.even f then f else f + 1.

(** [int(q)]: towards zero. *)
Definition py_int (q : Q) : Z :=
  if Qltb q 0 then Qceiling q else Qfloor q.

Definition keep_sil_frames (a : args) (ts : Q) : result Z :=
  if Qltb 0 ts then
    if hop_length a =? 0 then Raise ZeroDivisionError
    else Ok (py_int (inject_Z (np_round
               (ts * inject_Z (sampling_rate a) / inject_Z (hop_length a)))))
  else Ok (py_int ts).

(** What [trim_start] and [trim_end] can hold. *)
Inductive pyval : Type :=
| PyNone
| PyInt (z : Z).

Definition bound_of (v : pyval) : option Z :=
  match v with PyNone => None | PyInt z => Some z end.

(** The two locals of [main] that the branch on the number of silences
    binds; they are not reset between utterances, nor between batches. *)
Record trim_vars : Type := mk_trim_vars {
  trim_start : option pyval;
  trim_end : option pyval
}.

Definition unbound : trim_vars := mk_trim_vars None None.

Definition read (name : string) (v : option pyval) : result pyval :=
  match v with
  | Some x => Ok x
  | None => Raise (UnboundLocalError name)
  end.

(** [if len(trim_durs) == 2: ... elif sil_durs[0] == 0: ...
     elif sil_durs[0] == len(texts) - 1: ...] *)
Definition select_trim (n_texts : Z) (sil_durs trim_durs : list Z)
    (vars : trim_vars) : result trim_vars :=
  match trim_durs with
  | [a; b] => Ok (mk_trim_vars (Some (PyInt a)) (Some (PyInt (- b))))
  | _ =>
      match sil_durs, trim_durs with
      | d0 :: _, t0 :: _ =>
          if d0 =? 0 then
            Ok (mk_trim_vars (Some (PyInt t0)) (Some PyNone))
          else if d0 =? n_texts - 1 then
            Ok (mk_trim_vars (Some PyNone) (Some (PyInt (- t0))))
          else Ok vars
      | _, _ => Raise IndexError
      end
  end.

Section Trim.
Context {Frame Pitch : Type}.

(** One utterance of the batch as the trimming loop sees it: its entry of
    [texts], [durations], [mels_padded] with [mel_lens], and of
    [pitch_vecs['char']] when pitch was extracted. *)
Record utterance : Type := mk_utterance {
  u_fname : string;
  u_text : list string;
  u_durs : list Z;
  u_mel : list Frame;
  u_mel_len : Z;
  u_pitch : option (list Pitch)
}.

Record trimmed : Type := mk_trimmed {
  t_text : list string;
  t_mel : list Frame;
  t_dur : list Z;
  t_pitch : list Pitch
}.

(** The body of [for j, text in enumerate(texts)]; [ts] is
    [args.trim_silence] and [keep] the residual length in frames. *)
Definition trim_utterance (ts : Q) (keep n_texts : Z) (vars : trim_vars)
    (u : utterance) : result (trimmed * trim_vars) :=
  let text := u_text u in
  let sil_idx := np_where (String.eqb "sil") text in
  sil_durs <- take_idx (u_durs u) sil_idx ;;
  let trim_durs :=
    map (fun d => if keep <? d then d - keep else 0) sil_durs in
  vars <- select_trim n_texts sil_durs trim_durs vars ;;
  te <- read "trim_end" (trim_end vars) ;;
  let te := match te with
            | PyInt 0 => PyNone
            | _ => te
            end in
  let vars := mk_trim_vars (trim_start vars) (Some te) in
  let sil_mask :=
    if Qeq_bool ts 0
    then map (fun s => negb (String.eqb s "sil")) text
    else map (fun _ => true) text in
  text <- mask_select sil_mask text ;;
  let mel := py_slice None (Some (u_mel_len u)) (u_mel u) in
  tst <- read "trim_start" (trim_start vars) ;;
  let mel := py_slice (bound_of tst) (bound_of te) mel in
  let dur := put (u_durs u) sil_idx (map2 Z.sub sil_durs trim_durs) in
  dur <- mask_select sil_mask dur ;;
  _ <- assert_ (len mel =? sum dur)
         "Trimming led to mismatched durations and mels" ;;
  pitch <- match u_pitch u with
           | Some p => Ok p
           | None => Raise (KeyError (u_fname u))
           end ;;
  pitch <- mask_select sil_mask pitch ;;
  _ <- assert_ (len pitch =? len dur)
         "Trimming led to mismatched durations and pitches" ;;
  Ok (mk_trimmed text mel dur pitch, vars).

Fixpoint trim_loop (ts : Q) (keep n_texts : Z) (vars : trim_vars)
    (us : list utterance) : result (list trimmed * trim_vars) :=
  match us with
  | [] => Ok ([], vars)
  | u :: rest =>
      '(t, vars) <- trim_utterance ts keep n_texts vars u ;;
      '(ts', vars) <- trim_loop ts keep n_texts vars rest ;;
      Ok (t :: ts', vars)
  end.

(** [if args.trim_silence is not None: ...] for one batch. *)
Definition trim_batch (a : args) (vars : trim_vars) (us : list utterance)
  : result (list trimmed * trim_vars) :=
  match trim_silence a with
  | None => Ok ([], vars)
  | Some ts =>
      _ <- assert_ (extract_durs_from_textgrids a)
             "Can only trim silences based on TextGrid alignments" ;;
      keep <- keep_sil_frames a ts ;;
      trim_loop ts keep (len us) vars us
  end.
End Trim.

(** The utterance of the specification's example: a leading silence of 10
    frames before two phones; frames and pitch values are numbered so that
    one can see which of them survive. *)
Definition leading_sil_utt : @utterance Z Z :=
  mk_utterance "utt" ["sil"; "a"; "b"] [10; 5; 7]
    (map Z.of_nat (seq 0 22)) 22 (Some [0; 1; 2]).

Definition trim_args : args :=
  mk_args false true false false true false (Some 0%Q) 22050 256.

(** ** PitchNormalizer: [normalize_pitch_vectors] *)

Section PitchNormalizer.
Local Open Scope R_scope.

(** A float after arithmetic that may be undefined: [None] stands for what
    IEEE arithmetic reports as NaN or an infinity. *)
Definition xreal : Type := option R.

Definition is_zero (x : R) : bool :=
  if Req_dec_T x 0 then true else false.

Definition Rsum (l : list R) : R := fold_right Rplus 0 l.

(** [np.mean]; the mean of an empty array is NaN, with a warning only. *)
Definition np_mean (l : list R) : xreal :=
  match l with
  | [] => None
  | _ :: _ => Some (Rsum l / INR (List.length l))
  end.

(** [np.std], the population standard deviation, in exact arithmetic.  In
    double precision a pool of equal values can get a mean that is off by
    one rounding and a tiny positive deviation instead of 0. *)
Definition np_std (l : list R) : xreal :=
  match np_mean l with
  | None => None
  | Some m =>
      match np_mean (map (fun x => (x - m) * (x - m)) l) with
      | None => None
      | Some var => Some (sqrt var)
      end
  end.

Definition xsub (x m : xreal) : xreal :=
  match x, m with
  | Some a, Some b => Some (a - b)
  | _, _ => None
  end.

Definition xdiv (x s : xreal) : xreal :=
  match x, s with
  | Some a, Some b => if is_zero b then None else Some (a / b)
  | _, _ => None
  end.

(** [v[idx]] for an index array produced from [v] itself *)
Definition take_R (v : list R) (idx : list nat) : list R :=
  map (fun i => nth i v 0) idx.

(** [l[idx] = c] *)
Definition put_const {A : Type} (idx : list nat) (c : A) (l : list A)
  : list A :=
  fold_left (fun acc i => set_nth i c acc) idx l.

(** The body of [for v in pitch_vecs.values()]. *)
Definition normalize_vector (mean std : xreal) (v : list R) : list xreal :=
  let zero_idxs := np_where is_zero v in
  let v := map (fun x => xsub (Some x) mean) v in
  let v := map (fun x => xdiv x std) v in
  put_const zero_idxs (Some 0) v.

(** [np.concatenate([v[np.where(v != 0.0)[0]] for v in ...])] *)
Definition pooled_nonzeros (pitch_vecs : list (string * list R)) : list R :=
  List.concat
    (map (fun kv => take_R (snd kv)
                      (np_where (fun x => negb (is_zero x)) (snd kv)))
         pitch_vecs).

(** The accumulator is a dictionary in insertion order.  Concatenating no
    array at all is the one case that raises. *)
Definition normalize_pitch_vectors (pitch_vecs : list (string * list R))
  : result (list (string * list xreal) * (xreal * xreal)) :=
  match pitch_vecs with
  | [] => Raise (ValueError "need at least one array to concatenate")
  | _ :: _ =>
      let nonzeros := pooled_nonzeros pitch_vecs in
      let mean := np_mean nonzeros in
      let std := np_std nonzeros in
      Ok (map (fun kv => (fst kv, normalize_vector mean std (snd kv)))
              pitch_vecs,
          (mean, std))
  end.

(** The indices at which a vector holds exactly 0.0. *)
Definition zero_index (v : list xreal) (i : nat) : Prop :=
  nth_error v i = Some (Some 0).
End PitchNormalizer.

(** ** PitchExtractor: [maybe_pad] and the averaging of [calculate_pitch] *)

(** [maybe_pad(vec, l)]; [np.pad] appends zeros. *)
Definition maybe_pad {A : Type} (zero : A) (vec : list A) (l : Z)
  : result (list A) :=
  _ <- assert_ (Z.abs (len vec - l) <=? 3) "" ;;
  let vec := py_slice None (Some l) vec in
  if len vec <? l
  then Ok (vec ++ repeat zero (Z.to_nat (l - len vec)))
  else Ok vec.

Fixpoint cumsum_from (acc : Z) (l : list Z) : list Z :=
  match l with
  | [] => []
  | d :: r => (acc + d) :: cumsum_from (acc + d) r
  end.

(** [np.cumsum(np.pad(durs, (1, 0)))] *)
Definition cumsum_pad (durs : list Z) : list Z := cumsum_from 0 (0 :: durs).

(** [np.concatenate] of a Python list of arrays *)
Definition np_concatenate {A : Type} (arrays : list (list A))
  : result (list A) :=
  match arrays with
  | [] => Raise (ValueError "need at least one array to concatenate")
  | _ :: _ => Ok (List.concat arrays)
  end.

Definition Qsum (l : list Q) : Q := fold_right Qplus 0%Q l.

(** [values = pitch[a:b][np.where(pitch[a:b] != 0.0)[0]]] and then
    [np.mean(values) if len(values) > 0 else 0.0] *)
Definition voiced_mean (pitch : list Q) (a b : Z) : Q :=
  let seg := py_slice (Some a) (Some b) pitch in
  let values :=
    map (fun i => nth i seg 0%Q)
        (np_where (fun x => negb (Qeq_bool x 0)) seg) in
  if 0 <? len values
  then (Qsum values / inject_Z (len values))%Q
  else 0%Q.

(** [range(n)] *)
Definition py_range (n : Z) : list nat := seq 0 (Z.to_nat n).

(** [for idx, a, b in zip(range(n), cum[:-1], cum[1:]): out[idx] = ...].
    The index stays below the length of [cum[:-1]], which is the length of
    [out] at both uses, so the assignment is always in range. *)
Definition average_over (pitch : list Q) (n : Z) (cum : list Z)
    (out : list Q) : list Q :=
  fold_left
    (fun acc (it : nat * (Z * Z)) =>
       let '(idx, (a, b)) := it in
       set_nth idx (voiced_mean pitch a b) acc)
    (combine (py_range n)
             (combine (py_slice None (Some (- 1)) cum)
                      (py_slice (Some 1) None cum)))
    out.

(** [calculate_pitch] from the pitch track on: [pitch] is the array that
    Praat returns for the part of the recording between [start] and [end],
    one value per frame and 0.0 where the frame is unvoiced. *)
Definition calculate_pitch (pitch : list Q) (durs : list Z)
  : result (list Q * list Q * list Q) :=
  let mel_len := sum durs in
  let durs_cum := cumsum_pad durs in
  _ <- assert_ (Z.abs (mel_len - len pitch) <=? 1) "" ;;
  let pitch_char :=
    average_over pitch mel_len durs_cum (repeat 0%Q (List.length durs)) in
  chunks <- mapM (fun d => dur_chunk_sizes_int64 d 3) durs ;;
  durs_tri <- np_concatenate chunks ;;
  let durs_tri_cum := cumsum_pad durs_tri in
  let pitch_trichar :=
    average_over pitch (3 * mel_len) durs_tri_cum
      (repeat 0%Q (3 * List.length durs)) in
  pitch_mel <- maybe_pad 0%Q pitch mel_len ;;
  pitch_char <- maybe_pad 0%Q pitch_char (len durs) ;;
  pitch_trichar <- maybe_pad 0%Q pitch_trichar (len durs_tri) ;;
  Ok (pitch_mel, pitch_char, pitch_trichar).

(** The bounds [(a, b)] that the averaging loop reads for cumulated
    durations starting at [acc]. *)
Fixpoint bounds_from (acc : Z) (durs : list Z) : list (Z * Z) :=
  match durs with
  | [] => []
  | d :: r => (acc, acc + d) :: bounds_from (acc + d) r
  end.

(** The three parts in which [calculate_pitch] splits a duration. *)
Definition thirds (d : Z) : list Z :=
  repeat (d / 3 + 1) (Z.to_nat (d mod 3))
  ++ repeat (d / 3) (Z.to_nat (3 - d mod 3)).

(** * Properties *)

(** ** Sums, lengths and slices *)

Lemma sum_app (l m : list Z) : sum (l ++ m) = sum l + sum m.
Proof.
  induction l as [| x l IH]; simpl; [reflexivity | rewrite IH; lia].
Qed.

Lemma sum_repeat (v : Z) (k : nat) : sum (repeat v k) = v * Z.of_nat k.
Proof.
  induction k as [| k IH]; [simpl; lia |].
  cbn [repeat sum fold_right]. fold (sum (repeat v k)). rewrite IH. lia.
Qed.

Lemma len_app {A : Type} (l m : list A) : len (l ++ m) = len l + len m.
Proof. unfold len. rewrite length_app. lia. Qed.

Lemma len_repeat {A : Type} (v : A) (k : nat) : len (repeat v k) = Z.of_nat k.
Proof. unfold len. now rewrite repeat_length. Qed.

Lemma len_nonneg {A : Type} (l : list A) : 0 <= len l.
Proof. unfold len. lia. Qed.

Lemma skipn_repeat {A : Type} (v : A) (a k : nat) :
  skipn a (repeat v k) = repeat v (k - a).
Proof.
  revert a. induction k as [| k IH]; intros [| a]; simpl; auto.
Qed.

Lemma norm_index_in_range (n i : Z) :
  0 <= i <= n -> norm_index n i = i.
Proof.
  intros H. unfold norm_index.
  destruct (Z.ltb_spec i 0); lia.
Qed.

Lemma In_repeat {A : Type} (v x : A) (k : nat) : In x (repeat v k) -> x = v.
Proof. intros H. apply repeat_spec in H. exact H. Qed.

(** ** ChunkSplitter *)

Lemma ceil_div_floor_succ (n k : Z) :
  0 < k -> 0 < n mod k -> ceil_div n k = n / k + 1.
Proof.
  intros Hk Hr. unfold ceil_div.
  rewrite Z.div_opp_l_nz by lia. lia.
Qed.

(** The array that [dur_chunk_sizes] builds, before its assertion. *)
Lemma chunk_array (n k : Z) :
  0 < k ->
  assign_prefix (n mod k) (n / k + 1) (repeat (n / k) (Z.to_nat k))
  = repeat (n / k + 1) (Z.to_nat (n mod k))
    ++ repeat (n / k) (Z.to_nat (k - n mod k)).
Proof.
  intros Hk. unfold assign_prefix.
  pose proof (Z.mod_pos_bound n k Hk) as Hr.
  rewrite len_repeat, Z2Nat.id by lia.
  rewrite norm_index_in_range by lia.
  rewrite skipn_repeat. f_equal. f_equal. lia.
Qed.

Lemma chunk_array_sum (n k : Z) :
  0 < k ->
  sum (repeat (n / k + 1) (Z.to_nat (n mod k))
       ++ repeat (n / k) (Z.to_nat (k - n mod k))) = n.
Proof.
  intros Hk. pose proof (Z.mod_pos_bound n k Hk) as Hr.
  rewrite sum_app, !sum_repeat, !Z2Nat.id by lia.
  pose proof (Z.div_mod n k ltac:(lia)). nia.
Qed.

Lemma wrap_int64_id (z : Z) :
  - 2 ^ 63 <= z <= 2 ^ 63 - 1 -> wrap_int64 z = z.
Proof.
  intros H. unfold wrap_int64.
  rewrite Z.mod_small by lia. lia.
Qed.

Lemma fits_int32_true (z : Z) :
  - 2 ^ 31 <= z <= 2 ^ 31 - 1 -> fits_int32 z = true.
Proof.
  intros H. unfold fits_int32.
  apply andb_true_iff. split; apply Z.leb_le; lia.
Qed.

(** Within the range of the cells and of the accumulator the function
    returns the array that it has built. *)
Lemma dur_chunk_sizes_ok (n k : Z) :
  0 < k ->
  - 2 ^ 31 <= n / k -> n / k + 1 <= 2 ^ 31 - 1 ->
  - 2 ^ 63 <= n <= 2 ^ 63 - 1 ->
  dur_chunk_sizes n k
  = Ok (repeat (n / k + 1) (Z.to_nat (n mod k))
        ++ repeat (n / k) (Z.to_nat (k - n mod k))).
Proof.
  intros Hk Hq Hq1 Hn. unfold dur_chunk_sizes.
  destruct (Z.ltb_spec k 0); [lia |].
  destruct (Z.eqb_spec k 0); [lia |].
  rewrite !fits_int32_true by lia. cbn [negb orb].
  rewrite chunk_array by lia.
  rewrite chunk_array_sum by lia.
  rewrite wrap_int64_id by exact Hn.
  rewrite Z.eqb_refl. reflexivity.
Qed.

Lemma dur_chunk_sizes_int64_ok (n k : Z) :
  0 < k ->
  dur_chunk_sizes_int64 n k
  = Ok (repeat (n / k + 1) (Z.to_nat (n mod k))
        ++ repeat (n / k) (Z.to_nat (k - n mod k))).
Proof.
  intros Hk. unfold dur_chunk_sizes_int64.
  destruct (Z.ltb_spec k 0); [lia |].
  destruct (Z.eqb_spec k 0); [lia |].
  rewrite chunk_array by lia.
  rewrite chunk_array_sum by lia.
  rewrite Z.eqb_refl. reflexivity.
Qed.

(** The claim on the splitter as the specification words it, for one pair
    of arguments: no bound on [n]. *)
Definition dur_chunk_sizes_as_stated (n k : Z) : Prop :=
  0 <= n -> 0 < k ->
  exists ret,
    dur_chunk_sizes n k = Ok ret
    /\ len ret = k
    /\ sum ret = n
    /\ (forall i, 0 <= i < n mod k ->
          nth (Z.to_nat i) ret 0 = ceil_div n k)
    /\ (forall i, n mod k <= i < k -> nth (Z.to_nat i) ret 0 = n / k)
    /\ (forall x y, In x ret -> In y ret -> x - y <= 1)
    /\ (n = 0 -> Forall (fun x => x = 0) ret).

(** Two parts of [2 ** 63]: each part would be [2 ** 62], which no 32-bit
    cell holds, and the function does not return. *)
Lemma dur_chunk_sizes_huge_n_not_split :
  ~ dur_chunk_sizes_as_stated (2 ^ 63) 2.
Proof.
  intros H. destruct (H ltac:(lia) ltac:(lia)) as [ret [Hret _]].
  vm_compute in Hret. discriminate Hret.
Qed.

(** C6 (amended). For [0 <= n < 2 ^ 63] and [k > 0] such that the larger
    part, [n / k + 1], fits a 32-bit cell, [dur_chunk_sizes n k] returns [k]
    parts that sum to [n]; the first [n mod k] parts are the ceiling of
    [n / k] and the others its floor, so any two parts differ by at most 1,
    and all parts are 0 when [n = 0].  [dur_chunk_sizes 3 2] is [[2; 1]] and
    [dur_chunk_sizes 5 3] is [[2; 2; 1]]. *)
Theorem dur_chunk_sizes_spec :
  (forall n k : Z,
     0 <= n -> 0 < k ->
     n / k + 1 <= 2 ^ 31 - 1 -> n <= 2 ^ 63 - 1 ->
     exists ret,
       dur_chunk_sizes n k = Ok ret
       /\ len ret = k
       /\ sum ret = n
       /\ (forall i, 0 <= i < n mod k ->
             nth (Z.to_nat i) ret 0 = ceil_div n k)
       /\ (forall i, n mod k <= i < k -> nth (Z.to_nat i) ret 0 = n / k)
       /\ (forall x y, In x ret -> In y ret -> x - y <= 1)
       /\ (n = 0 -> Forall (fun x => x = 0) ret))
  /\ dur_chunk_sizes 3 2 = Ok [2; 1]
  /\ dur_chunk_sizes 5 3 = Ok [2; 2; 1].
Proof.
  split; [| split; reflexivity].
  intros n k Hn Hk Hq Hn64.
  pose proof (Z.mod_pos_bound n k Hk) as Hr.
  pose proof (Z.div_pos n k Hn Hk) as Hq0.
  eexists. split; [apply dur_chunk_sizes_ok; lia |].
  split; [rewrite len_app, !len_repeat; lia |].
  split; [apply chunk_array_sum; lia |].
  split; [| split; [| split]].
  - intros i Hi.
    rewrite app_nth1 by (rewrite repeat_length; lia).
    rewrite nth_repeat_lt by lia.
    symmetry. apply ceil_div_floor_succ; lia.
  - intros i Hi.
    rewrite app_nth2 by (rewrite repeat_length; lia).
    rewrite repeat_length.
    apply nth_repeat_lt. lia.
  - intros x y Hx Hy.
    apply in_app_or in Hx. apply in_app_or in Hy.
    destruct Hx as [Hx | Hx]; apply In_repeat in Hx;
      destruct Hy as [Hy | Hy]; apply In_repeat in Hy; lia.
  - intros ->. rewrite Z.mod_0_l, Z.div_0_l by lia.
    simpl. apply Forall_forall. intros x Hx.
    now apply In_repeat in Hx.
Qed.

Lemma dur_chunk_sizes_spec_witness :
  exists ret,
    dur_chunk_sizes 7 3 = Ok ret
    /\ len ret = 3
    /\ sum ret = 7
    /\ (forall i, 0 <= i < 7 mod 3 ->
          nth (Z.to_nat i) ret 0 = ceil_div 7 3)
    /\ (forall i, 7 mod 3 <= i < 3 -> nth (Z.to_nat i) ret 0 = 7 / 3)
    /\ (forall x y, In x ret -> In y ret -> x - y <= 1)
    /\ (7 = 0 -> Forall (fun x => x = 0) ret).
Proof.
  apply (proj1 dur_chunk_sizes_spec 7 3); cbn; lia.
Defined.

(** ** RunLengthEncoder *)

Section RunLengthFacts.
Context {A : Type}.
Variable eqb : A -> A -> bool.
Hypothesis eqb_eq : forall a b, eqb a b = true -> a = b.

Definition runs_positive (rl : list (A * Z)) : Prop :=
  Forall (fun p => 1 <= snd p) rl.

Lemma expand_app (rl rl' : list (A * Z)) :
  expand (rl ++ rl') = expand rl ++ expand rl'.
Proof. unfold expand. apply flat_map_app. Qed.

Lemma repeat_snoc (a : A) (k : nat) : repeat a (S k) = repeat a k ++ [a].
Proof.
  induction k as [| k IH]; [reflexivity |].
  change (repeat a (S (S k))) with (a :: repeat a (S k)).
  rewrite IH at 1. reflexivity.
Qed.

Lemma last_cons_default (l : list A) : forall a b : A,
  last (b :: l) a = last l b.
Proof.
  induction l as [| c l IHl]; intros a b; [reflexivity |].
  change (last (b :: c :: l) a) with (last (c :: l) a).
  rewrite (IHl a c), (IHl b c). reflexivity.
Qed.

(** The loop invariant: the runs closed so far, followed by the open run of
    the current symbol, spell the symbols read so far. *)
Lemma rle_fold (l : list A) : forall (a : A) (st : rle_state),
  1 <= dur st ->
  runs_positive (run_lengths st) ->
  let st' := fold_left (rle_step eqb) (combine (a :: l) l) st in
  1 <= dur st'
  /\ runs_positive (run_lengths st')
  /\ sum (map snd (run_lengths st')) + dur st'
     = sum (map snd (run_lengths st)) + dur st + len l
  /\ expand (run_lengths st') ++ repeat (last l a) (Z.to_nat (dur st'))
     = expand (run_lengths st) ++ repeat a (Z.to_nat (dur st)) ++ l
  /\ (l <> [] -> u1 st' = Some (last l a)).
Proof.
  induction l as [| b l IH]; intros a st Hd Hpos.
  - simpl. repeat split; auto.
    + unfold len; simpl; lia.
    + now rewrite app_nil_r.
    + intros H; now elim H.
  - change (combine (a :: b :: l) (b :: l)) with ((a, b) :: combine (b :: l) l).
    cbn [fold_left].
    set (st1 := rle_step eqb st (a, b)).
    assert (H1 : 1 <= dur st1 /\ runs_positive (run_lengths st1)
                 /\ sum (map snd (run_lengths st1)) + dur st1
                    = sum (map snd (run_lengths st)) + dur st + 1
                 /\ expand (run_lengths st1)
                      ++ repeat b (Z.to_nat (dur st1))
                    = expand (run_lengths st)
                        ++ repeat a (Z.to_nat (dur st)) ++ [b]
                 /\ u1 st1 = Some b).
    { subst st1. unfold rle_step.
      destruct (eqb b a) eqn:E; cbn [dur run_lengths u1].
      - apply eqb_eq in E. subst b.
        repeat split; auto; try lia.
        replace (Z.to_nat (dur st + 1)) with (S (Z.to_nat (dur st))) by lia.
        now rewrite repeat_snoc.
      - repeat split; auto; try lia.
        + apply Forall_app. split; [exact Hpos |].
          constructor; [simpl; lia | constructor].
        + rewrite map_app, sum_app. simpl. lia.
        + rewrite expand_app. unfold expand at 2. simpl.
          rewrite app_nil_r, <- app_assoc. reflexivity. }
    destruct H1 as (Hd1 & Hpos1 & Hsum1 & Hexp1 & Hu1).
    specialize (IH b st1 Hd1 Hpos1). cbv zeta in IH.
    destruct IH as (Hd' & Hpos' & Hsum' & Hexp' & Hu').
    assert (Hlast : last (b :: l) a = last l b).
    { apply last_cons_default. }
    cbv zeta. rewrite Hlast.
    repeat split; auto.
    + rewrite Hsum', Hsum1. unfold len. cbn [List.length]. lia.
    + rewrite Hexp'. rewrite app_assoc, Hexp1.
      rewrite <- !app_assoc. reflexivity.
    + intros _. destruct l as [| c l].
      * simpl. exact Hu1.
      * apply Hu'. discriminate.
Qed.

(** On two symbols or more the encoder returns, and what it returns is a
    run-length code of its input: the last run is flushed after the loop. *)
Lemma run_length_encode_two_or_more (x y : A) (l : list A) :
  exists rl,
    run_length_encode eqb (x :: y :: l) = Ok rl
    /\ rl <> []
    /\ runs_positive rl
    /\ sum (map snd rl) = len (x :: y :: l)
    /\ expand rl = x :: y :: l.
Proof.
  unfold run_length_encode, rle_loop.
  change (tl (x :: y :: l)) with (y :: l).
  pose proof (rle_fold (y :: l) x (mk_rle [] 1 None)) as H.
  cbn [dur run_lengths] in H.
  specialize (H ltac:(lia) ltac:(constructor)). cbv zeta in H.
  destruct H as (Hd & Hpos & Hsum & Hexp & Hu).
  rewrite (Hu ltac:(discriminate)).
  eexists. split; [reflexivity |].
  split; [intros E; apply app_eq_nil in E; destruct E; discriminate |].
  split.
  { apply Forall_app. split; [exact Hpos |].
    constructor; [exact Hd | constructor]. }
  split.
  { rewrite map_app, sum_app. cbn [map snd sum fold_right].
    cbn [map sum fold_right] in Hsum.
    unfold len in *. cbn [List.length] in *. lia. }
  rewrite expand_app. unfold expand at 2. cbn [flat_map fst snd].
  rewrite app_nil_r, Hexp. reflexivity.
Qed.

(** With fewer than two symbols the loop body never runs. *)
Lemma run_length_encode_short (l : list A) :
  (List.length l <= 1)%nat ->
  run_length_encode eqb l = Raise (UnboundLocalError "u1").
Proof.
  destruct l as [| x [| y l]]; simpl; intros H; try reflexivity; lia.
Qed.

Lemma run_length_encode_nonempty (l : list A) (rl : list (A * Z)) :
  run_length_encode eqb l = Ok rl -> rl <> [].
Proof.
  unfold run_length_encode.
  destruct (u1 (rle_loop eqb l)); [| discriminate].
  intros H. inversion H. intros E.
  apply app_eq_nil in E. destruct E; discriminate.
Qed.
End RunLengthFacts.

(** C3. [run_length_encode] does not return on a sequence of one symbol:
    [zip(symbols, symbols[1:])] is empty, the loop body never binds [u1],
    and the flush after the loop reads it. *)
Theorem run_length_encode_singleton_raises :
  forall v : Z,
    run_length_encode Z.eqb [v] = Raise (UnboundLocalError "u1").
Proof. intros v. reflexivity. Qed.

(** ** Unit-run-length strategy *)

Lemma sum_add_to_last (l : list Z) (d : Z) :
  l <> [] -> sum (removelast l ++ [last l 0 + d]) = sum l + d.
Proof.
  intros Hl.
  rewrite (app_removelast_last 0 Hl) at 3.
  rewrite !sum_app. simpl. lia.
Qed.

Lemma add_to_last_ok (l : list Z) (d : Z) :
  l <> [] -> add_to_last l d = Ok (removelast l ++ [last l 0 + d]).
Proof. destruct l; [congruence | reflexivity]. Qed.

(** What [unit_durations] computes from the runs of its input. *)
Lemma unit_durations_of_runs (fname : string) (text : list Z) (mel_len : Z)
    (rl : list (Z * Z)) :
  run_length_encode Z.eqb text = Ok rl ->
  let durs := map snd rl in
  let total := sum durs in
  unit_durations fname text mel_len
  = Ok (mk_unit_out (map fst rl)
          (if total =? mel_len then durs
           else removelast durs ++ [last durs 0 + (mel_len - total)])
          (if (total =? mel_len) || (mel_len - total =? 1) then []
           else [mk_mismatch fname mel_len total])).
Proof.
  intros Hrl durs total. unfold unit_durations. rewrite Hrl.
  cbn [bind]. fold durs. fold total.
  assert (Hne : durs <> []).
  { apply run_length_encode_nonempty in Hrl. subst durs.
    destruct rl; [congruence | discriminate]. }
  destruct (Z.eqb_spec total mel_len) as [E | E]; cbn [negb bind].
  - unfold total in E. rewrite E, Z.eqb_refl. reflexivity.
  - rewrite (add_to_last_ok durs _ Hne). cbn [bind].
    rewrite sum_add_to_last by exact Hne.
    replace (sum durs + (mel_len - total)) with mel_len
      by (unfold total; lia).
    rewrite Z.eqb_refl. cbn [assert_ bind orb].
    destruct (mel_len - total =? 1); reflexivity.
Qed.

(** The unit-run-length claim as the specification words it: the diagnostic
    depends on the magnitude of the difference only. *)
Definition unit_adjustment_as_stated (fname : string) (text : list Z)
    (mel_len : Z) : Prop :=
  forall rl, run_length_encode Z.eqb text = Ok rl ->
    let durs := map snd rl in
    let diff := mel_len - sum durs in
    diff <> 0 ->
    exists out,
      unit_durations fname text mel_len = Ok out
      /\ uo_durs out = removelast durs ++ [last durs 0 + diff]
      /\ sum (uo_durs out) = mel_len
      /\ (uo_log out <> [] <-> diff <> 0 /\ Z.abs diff <> 1).

(** Three units in two runs against two frames: the last run loses one frame
    and the mismatch is logged, although its magnitude is exactly 1. *)
Lemma unit_adjustment_one_frame_long_is_logged :
  ~ unit_adjustment_as_stated "utt" [1; 1; 2] 2.
Proof.
  intros H.
  destruct (H [(1, 2); (2, 1)] eq_refl ltac:(cbv; discriminate))
    as (out & Hout & _ & _ & Hlog).
  vm_compute in Hout. inversion Hout; subst out. cbn in Hlog.
  destruct Hlog as [Hlog _].
  destruct (Hlog ltac:(discriminate)) as [_ Habs].
  apply Habs. reflexivity.
Qed.

(** C2 (amended). When the natural run-length sum differs from [mel_len],
    only the last run changes, by [mel_len - sum]; the adjusted durations sum
    to [mel_len]; and the mismatch is logged if and only if [mel_len - sum]
    is not [+1]: a sequence one frame short is adjusted silently, one frame
    long is logged. *)
Theorem unit_adjustment_spec :
  forall (fname : string) (text : list Z) (mel_len : Z) (rl : list (Z * Z)),
    run_length_encode Z.eqb text = Ok rl ->
    let durs := map snd rl in
    let diff := mel_len - sum durs in
    diff <> 0 ->
    exists out,
      unit_durations fname text mel_len = Ok out
      /\ uo_units out = map fst rl
      /\ uo_durs out = removelast durs ++ [last durs 0 + diff]
      /\ removelast (uo_durs out) = removelast durs
      /\ sum (uo_durs out) = mel_len
      /\ (uo_log out <> [] <-> diff <> 1)
      /\ (uo_log out <> [] ->
          uo_log out = [mk_mismatch fname mel_len (sum durs)]).
Proof.
  intros fname text mel_len rl Hrl durs diff Hdiff.
  pose proof (unit_durations_of_runs fname text mel_len rl Hrl) as H.
  cbv zeta in H. fold durs in H.
  assert (Hne : durs <> []).
  { apply run_length_encode_nonempty in Hrl. subst durs.
    destruct rl; [congruence | discriminate]. }
  destruct (Z.eqb_spec (sum durs) mel_len) as [E | E];
    [subst diff; lia |].
  eexists. split; [exact H |]. cbn [uo_units uo_durs uo_log orb].
  split; [reflexivity |].
  split; [reflexivity |].
  split; [apply removelast_last |].
  split; [rewrite sum_add_to_last by exact Hne; lia |].
  fold diff.
  destruct (Z.eqb_spec diff 1) as [E1 | E1]; split.
  - split; [intros Hl; now elim Hl | intros Hd; now elim Hd].
  - intros Hl; now elim Hl.
  - split; [intros _; exact E1 | intros _; discriminate].
  - reflexivity.
Qed.

Lemma unit_adjustment_spec_witness :
  exists out,
    unit_durations "utt" [1; 1; 2] 5 = Ok out
    /\ uo_durs out = [2; 3]
    /\ uo_log out <> [].
Proof.
  destruct (unit_adjustment_spec "utt" [1; 1; 2] 5 [(1, 2); (2, 1)]
              eq_refl ltac:(cbv; discriminate))
    as (out & H1 & _ & H2 & _ & _ & H3 & _).
  exists out. split; [exact H1 |]. split; [exact H2 |].
  apply H3. cbv. discriminate.
Defined.

(** ** AlignmentFileParser *)

Definition interval_frames (sampling_rate hop_length : Z) (t : interval) : Z :=
  frame_of (end_time t) sampling_rate hop_length
  - frame_of (start_time t) sampling_rate hop_length.

Lemma textgrid_step_relabel (n sr hop : Z) (ph : list string) (du : list Z)
    (i : Z) (t : interval) :
  textgrid_step n sr hop (ph, du) (i, t)
  = (ph ++ [relabel n i (text t)], du ++ [interval_frames sr hop t]).
Proof.
  unfold textgrid_step, relabel, interval_frames.
  destruct (str_in (text t) sil_phones); cbn [negb];
    [destruct ((i =? 0) || (i =? n - 1)) |]; reflexivity.
Qed.

(** The loop of [parse_textgrid] as two maps over the tier. *)
Lemma textgrid_fold (n sr hop : Z) (l : list interval) :
  forall (i : Z) (ph : list string) (du : list Z),
    fold_left (textgrid_step n sr hop) (enumerate_from i l) (ph, du)
    = (ph ++ map (fun it => relabel n (fst it) (text (snd it)))
                 (enumerate_from i l),
       du ++ map (interval_frames sr hop) l).
Proof.
  induction l as [| t l IH]; intros i ph du.
  - simpl. now rewrite !app_nil_r.
  - cbn [enumerate_from fold_left map].
    rewrite textgrid_step_relabel, IH.
    cbn [fst snd]. rewrite <- !app_assoc. reflexivity.
Qed.

Lemma nth_error_enumerate_from {A : Type} (l : list A) :
  forall (i : Z) (k : nat) (x : A),
    nth_error l k = Some x ->
    nth_error (enumerate_from i l) k = Some (i + Z.of_nat k, x).
Proof.
  induction l as [| y l IH]; intros i [| k] x H; simpl in *; try discriminate.
  - inversion H. now rewrite Z.add_0_r.
  - rewrite (IH (i + 1) k x H). f_equal. f_equal. lia.
Qed.

Lemma enumerate_from_length {A : Type} (l : list A) :
  forall i, List.length (enumerate_from i l) = List.length l.
Proof. induction l; intros i; simpl; auto. Qed.

Lemma last_default {A : Type} (l : list A) (d d' : A) :
  l <> [] -> last l d = last l d'.
Proof.
  induction l as [| x l IH]; intros H; [congruence |].
  destruct l as [| y l]; [reflexivity |].
  change (last (x :: y :: l) d) with (last (y :: l) d).
  change (last (x :: y :: l) d') with (last (y :: l) d').
  apply IH. discriminate.
Qed.

Lemma parse_textgrid_ok (tier : list interval) (sr hop : Z) :
  tier <> [] -> hop <> 0 ->
  parse_textgrid tier sr hop
  = Ok (map (fun it => relabel (len tier) (fst it) (text (snd it)))
            (enumerate tier),
        map (interval_frames sr hop) tier,
        start_time (hd (mk_interval 0 0 "") tier),
        end_time (last tier (mk_interval 0 0 ""))).
Proof.
  intros Ht Hh. unfold parse_textgrid.
  destruct tier as [| t0 tl]; [congruence |].
  destruct (Z.eqb_spec hop 0); [congruence |].
  unfold enumerate. rewrite textgrid_fold. cbn [app hd].
  rewrite (last_default (t0 :: tl) t0 (mk_interval 0 0 "")) by discriminate.
  reflexivity.
Qed.

(** ** The parser in double precision *)

Section FrameArithmeticFacts.
Variable np_ceil_frame : Q -> Z -> Z -> Z.

Definition interval_frames_fl (sampling_rate hop_length : Z) (t : interval)
  : Z :=
  np_ceil_frame (end_time t) sampling_rate hop_length
  - np_ceil_frame (start_time t) sampling_rate hop_length.

Lemma textgrid_step_fl_relabel (n sr hop : Z) (ph : list string)
    (du : list Z) (i : Z) (t : interval) :
  textgrid_step_fl np_ceil_frame n sr hop (ph, du) (i, t)
  = (ph ++ [relabel n i (text t)], du ++ [interval_frames_fl sr hop t]).
Proof.
  unfold textgrid_step_fl, relabel, interval_frames_fl.
  destruct (str_in (text t) sil_phones); cbn [negb];
    [destruct ((i =? 0) || (i =? n - 1)) |]; reflexivity.
Qed.

Lemma textgrid_fold_fl (n sr hop : Z) (l : list interval) :
  forall (i : Z) (ph : list string) (du : list Z),
    fold_left (textgrid_step_fl np_ceil_frame n sr hop)
              (enumerate_from i l) (ph, du)
    = (ph ++ map (fun it => relabel n (fst it) (text (snd it)))
                 (enumerate_from i l),
       du ++ map (interval_frames_fl sr hop) l).
Proof.
  induction l as [| t l IH]; intros i ph du.
  - simpl. now rewrite !app_nil_r.
  - cbn [enumerate_from fold_left map].
    rewrite textgrid_step_fl_relabel, IH.
    cbn [fst snd]. rewrite <- !app_assoc. reflexivity.
Qed.

Lemma parse_textgrid_fl_ok (tier : list interval) (sr hop : Z) :
  tier <> [] -> hop <> 0 ->
  parse_textgrid_fl np_ceil_frame tier sr hop
  = Ok (map (fun it => relabel (len tier) (fst it) (text (snd it)))
            (enumerate tier),
        map (interval_frames_fl sr hop) tier,
        start_time (hd (mk_interval 0 0 EmptyString) tier),
        end_time (last tier (mk_interval 0 0 EmptyString))).
Proof.
  intros Ht Hh. unfold parse_textgrid_fl.
  destruct tier as [| t0 tl]; [congruence |].
  destruct (Z.eqb_spec hop 0); [congruence |].
  unfold enumerate. rewrite textgrid_fold_fl. cbn [app hd].
  rewrite (last_default (t0 :: tl) t0 (mk_interval 0 0 EmptyString))
    by discriminate.
  reflexivity.
Qed.

Lemma interval_frames_fl_telescope (sr hop : Z) (l : list interval) :
  forall t : interval,
    contiguous (t :: l) ->
    sum (map (interval_frames_fl sr hop) (t :: l))
    = np_ceil_frame (end_time (last l t)) sr hop
      - np_ceil_frame (start_time t) sr hop.
Proof.
  induction l as [| t' l IH]; intros t H.
  - cbn. unfold interval_frames_fl. lia.
  - destruct H as [Hs Hc]. specialize (IH t' Hc).
    change (map (interval_frames_fl sr hop) (t :: t' :: l))
      with (interval_frames_fl sr hop t
            :: map (interval_frames_fl sr hop) (t' :: l)).
    change (sum (interval_frames_fl sr hop t
                 :: map (interval_frames_fl sr hop) (t' :: l)))
      with (interval_frames_fl sr hop t
            + sum (map (interval_frames_fl sr hop) (t' :: l))).
    rewrite IH.
    replace (last (t' :: l) t) with (last l t')
      by (destruct l; [reflexivity | symmetry; apply last_cons_default]).
    unfold interval_frames_fl. rewrite Hs. lia.
Qed.

Lemma parse_textgrid_fl_contiguous_total (tier : list interval)
    (sr hop : Z) :
  contiguous tier -> tier <> [] ->
  sum (map (interval_frames_fl sr hop) tier)
  = np_ceil_frame (end_time (last tier (mk_interval 0 0 EmptyString)))
      sr hop
    - np_ceil_frame (start_time (hd (mk_interval 0 0 EmptyString) tier))
        sr hop.
Proof.
  intros Hc Ht. destruct tier as [| t l]; [congruence |].
  rewrite interval_frames_fl_telescope by exact Hc.
  cbn [hd].
  replace (last (t :: l) (mk_interval 0 0 EmptyString))
    with (last l t)
    by (destruct l; [reflexivity | symmetry; apply last_cons_default]).
  reflexivity.
Qed.
End FrameArithmeticFacts.

(** In exact arithmetic the parser of this section is [parse_textgrid]. *)
Lemma parse_textgrid_fl_exact (tier : list interval) (sr hop : Z) :
  parse_textgrid_fl frame_of tier sr hop = parse_textgrid tier sr hop.
Proof. reflexivity. Qed.

Lemma str_in_sil_phones (p : string) :
  str_in p sil_phones = true <-> In p ["sil"; "sp"; "spn"; ""].
Proof.
  unfold str_in, sil_phones. rewrite existsb_exists. split.
  - intros [x [Hin Heq]]. apply String.eqb_eq in Heq. subst x. exact Hin.
  - intros H. exists p. split; [exact H | apply String.eqb_refl].
Qed.

(** C8. On a non-empty tier the parser returns one label per interval, the
    same labels however the frame numbers of the durations are rounded.  A
    label among ["sil"], ["sp"], ["spn"] and the empty label becomes ["sil"]
    at the first and at the last position and ["sp"] strictly inside; any
    other label is kept.  So an empty label at either end gives ["sil"]
    whatever its neighbours are, and no interior interval, ["sp"] included,
    is labelled ["sil"]. *)
Theorem parse_textgrid_labels :
  forall (tier : list interval) (sr hop : Z),
    tier <> [] -> hop <> 0 ->
    exists phones durs st en,
      parse_textgrid tier sr hop = Ok (phones, durs, st, en)
      /\ List.length phones = List.length tier
      /\ (forall np_ceil_frame : Q -> Z -> Z -> Z,
             exists durs',
               parse_textgrid_fl np_ceil_frame tier sr hop
               = Ok (phones, durs', st, en))
      /\ forall (i : nat) (t : interval),
           nth_error tier i = Some t ->
           exists p,
             nth_error phones i = Some p
             /\ p = relabel (len tier) (Z.of_nat i) (text t)
             /\ (~ In (text t) ["sil"; "sp"; "spn"; ""] -> p = text t)
             /\ (In (text t) ["sil"; "sp"; "spn"; ""] ->
                 i = O \/ i = (List.length tier - 1)%nat -> p = "sil")
             /\ (In (text t) ["sil"; "sp"; "spn"; ""] ->
                 (0 < i < List.length tier - 1)%nat -> p = "sp")
             /\ (text t = "" ->
                 i = O \/ i = (List.length tier - 1)%nat -> p = "sil")
             /\ ((0 < i < List.length tier - 1)%nat -> p <> "sil").
Proof.
  intros tier sr hop Ht Hh.
  rewrite (parse_textgrid_ok tier sr hop Ht Hh).
  do 4 eexists. split; [reflexivity |].
  split; [unfold enumerate; now rewrite length_map, enumerate_from_length |].
  split.
  { intros F. rewrite (parse_textgrid_fl_ok F tier sr hop Ht Hh).
    eexists. reflexivity. }
  intros i t Hi.
  assert (Hlen : (i < List.length tier)%nat).
  { apply nth_error_Some. congruence. }
  eexists. split.
  { unfold enumerate.
    rewrite nth_error_map, (nth_error_enumerate_from tier 0 i t Hi).
    reflexivity. }
  cbn [fst snd option_map]. rewrite Z.add_0_l.
  assert (Hends : i = O \/ i = (List.length tier - 1)%nat ->
                  (Z.of_nat i =? 0) || (Z.of_nat i =? len tier - 1) = true).
  { intros [-> | ->]; [reflexivity |].
    apply orb_true_iff. right. apply Z.eqb_eq. unfold len. lia. }
  assert (Hmid : (0 < i < List.length tier - 1)%nat ->
                 (Z.of_nat i =? 0) || (Z.of_nat i =? len tier - 1) = false).
  { intros Hm. apply orb_false_iff. unfold len.
    split; apply Z.eqb_neq; lia. }
  assert (Hsil : In (text t) ["sil"; "sp"; "spn"; ""] ->
                 str_in (text t) sil_phones = true)
    by apply str_in_sil_phones.
  assert (Hnot : ~ In (text t) ["sil"; "sp"; "spn"; ""] ->
                 str_in (text t) sil_phones = false).
  { intros Hn. destruct (str_in (text t) sil_phones) eqn:E; [| reflexivity].
    elim Hn. apply str_in_sil_phones. exact E. }
  split; [reflexivity |]. unfold relabel.
  split; [intros Hn; now rewrite (Hnot Hn) |].
  split; [intros Hs He; now rewrite (Hsil Hs), (Hends He) |].
  split; [intros Hs Hm; now rewrite (Hsil Hs), (Hmid Hm) |].
  split; [intros -> He; cbn; now rewrite (Hends He) |].
  intros Hm. rewrite (Hmid Hm).
  destruct (str_in (text t) sil_phones) eqn:E; [discriminate |].
  intros Hp. rewrite Hp in E. discriminate.
Qed.

Lemma parse_textgrid_labels_witness :
  exists phones durs st en,
    parse_textgrid
      [mk_interval 0 (1 # 2) ""; mk_interval (1 # 2) 1 "a";
       mk_interval 1 (3 # 2) "spn"; mk_interval (3 # 2) 2 ""] 22050 256
    = Ok (phones, durs, st, en)
    /\ List.length phones = 4%nat
    /\ nth_error phones 0 = Some "sil"
    /\ nth_error phones 1 = Some "a"
    /\ nth_error phones 2 = Some "sp"
    /\ nth_error phones 3 = Some "sil".
Proof.
  destruct (parse_textgrid_labels
              [mk_interval 0 (1 # 2) ""; mk_interval (1 # 2) 1 "a";
               mk_interval 1 (3 # 2) "spn"; mk_interval (3 # 2) 2 ""]
              22050 256 ltac:(discriminate) ltac:(lia))
    as (phones & durs & st & en & H & Hl & _ & Hall).
  exists phones, durs, st, en.
  split; [exact H |]. split; [exact Hl |].
  destruct (Hall 0%nat _ eq_refl) as (p0 & H0 & _ & _ & S0 & _).
  destruct (Hall 1%nat _ eq_refl) as (p1 & H1 & _ & K1 & _).
  destruct (Hall 2%nat _ eq_refl) as (p2 & H2 & _ & _ & _ & M2 & _).
  destruct (Hall 3%nat _ eq_refl) as (p3 & H3 & _ & _ & S3 & _).
  cbn [text] in *.
  rewrite H0, H1, H2, H3.
  rewrite (S0 ltac:(cbn; tauto) ltac:(left; reflexivity)).
  rewrite K1
    by (cbn; intros [E | [E | [E | [E | []]]]]; discriminate E).
  rewrite (M2 ltac:(cbn; tauto) ltac:(cbn; lia)).
  rewrite (S3 ltac:(cbn; tauto) ltac:(right; reflexivity)).
  repeat split.
Defined.

(** ** Attention strategy: argmax and histogram *)

Lemma norm_index_min (n i : Z) : 0 <= i -> norm_index n i = Z.min i n.
Proof. intros H. unfold norm_index. destruct (Z.ltb_spec i 0); [lia | easy]. Qed.

Lemma py_slice_prefix {A : Type} (n : Z) (l : list A) :
  0 <= n -> py_slice None (Some n) l = firstn (Z.to_nat n) l.
Proof.
  intros Hn. unfold py_slice.
  rewrite norm_index_min by exact Hn.
  cbn [Z.to_nat skipn]. rewrite Z.sub_0_r.
  destruct (Z.le_ge_cases n (len l)) as [H | H].
  - now rewrite Z.min_l by exact H.
  - rewrite Z.min_r by lia. unfold len in *.
    rewrite Nat2Z.id, firstn_all.
    symmetry. apply firstn_all2. lia.
Qed.

Lemma py_slice_whole {A : Type} (l : list A) :
  py_slice None (Some (len l)) l = l.
Proof.
  rewrite py_slice_prefix by apply len_nonneg.
  unfold len. rewrite Nat2Z.id. apply firstn_all.
Qed.

Lemma argmax_from_range (row : list Q) :
  forall (bi : Z) (b : Q) (k : Z),
    0 <= bi < k ->
    0 <= argmax_from bi b k row < k + len row.
Proof.
  induction row as [| x r IH]; intros bi b k H.
  - simpl. unfold len. simpl. lia.
  - cbn [argmax_from]. unfold len. cbn [List.length].
    destruct (Qltb b x).
    + specialize (IH k x (k + 1) ltac:(lia)). unfold len in IH. lia.
    + specialize (IH bi b (k + 1) ltac:(lia)). unfold len in IH. lia.
Qed.

Lemma argmax_range (row : list Q) (i : Z) :
  argmax row = Ok i -> 0 <= i < len row.
Proof.
  destruct row as [| x r]; [discriminate |].
  cbn [argmax]. intros H. inversion H.
  pose proof (argmax_from_range r 0 x 1 ltac:(lia)) as Hr.
  unfold len in *. cbn [List.length]. lia.
Qed.

Lemma mapM_Forall2 {A B : Type} (f : A -> result B) (l : list A) :
  forall ys, mapM f l = Ok ys -> Forall2 (fun x y => f x = Ok y) l ys.
Proof.
  induction l as [| x l IH]; intros ys H.
  - inversion H. constructor.
  - cbn [mapM] in H. destruct (f x) as [y |] eqn:Ex; [| discriminate].
    cbn [bind] in H. destruct (mapM f l) as [zs |]; [| discriminate].
    cbn [bind] in H. inversion H. constructor; auto.
Qed.

Lemma mapM_total {A B : Type} (f : A -> result B) (l : list A) :
  Forall (fun x => exists y, f x = Ok y) l -> exists ys, mapM f l = Ok ys.
Proof.
  induction 1 as [| x l [y Hy] _ [ys IH]].
  - now exists [].
  - exists (y :: ys). cbn [mapM]. now rewrite Hy, IH.
Qed.

Lemma histc_bin_id (T x : Z) :
  2 <= T -> 0 <= x < T -> histc_bin T 0 (T - 1) x = Some x.
Proof.
  intros HT Hx. unfold histc_bin.
  destruct (Z.ltb_spec x 0); [lia |].
  destruct (Z.ltb_spec (T - 1) x); [lia |].
  cbn [orb]. rewrite !Z.sub_0_r.
  destruct (Z.eq_dec x (T - 1)) as [-> | Hne].
  - rewrite Z.mul_comm, Z.div_mul by lia.
    rewrite Z.eqb_refl. reflexivity.
  - assert (Hq : x * T / (T - 1) = x).
    { symmetry. apply Z.div_unique with (r := x); lia. }
    rewrite Hq. destruct (Z.eqb_spec x T); [lia | reflexivity].
Qed.

Definition count_eq (xs : list Z) (b : Z) : Z :=
  len (filter (fun x => x =? b) xs).

Lemma count_bin_eq (bins mn mx : Z) (xs : list Z) (b : Z) :
  Forall (fun x => histc_bin bins mn mx x = Some x) xs ->
  count_bin bins mn mx xs b = count_eq xs b.
Proof.
  intros H. unfold count_bin, count_eq. f_equal.
  apply filter_ext_in. intros x Hx.
  rewrite Forall_forall in H. now rewrite (H x Hx).
Qed.

Lemma fold_min_zero (xs : list Z) :
  Forall (fun x => x = 0) xs -> fold_left Z.min xs 0 = 0.
Proof. induction 1 as [| x l -> _ IH]; simpl; auto. Qed.

Lemma fold_max_zero (xs : list Z) :
  Forall (fun x => x = 0) xs -> fold_left Z.max xs 0 = 0.
Proof. induction 1 as [| x l -> _ IH]; simpl; auto. Qed.

(** On indices in range, [torch.histc] with one unit-spaced bin per symbol
    counts the occurrences of each index. *)
Lemma histc_counts (xs : list Z) (T : Z) :
  1 <= T ->
  Forall (fun x => 0 <= x < T) xs ->
  histc_cuda xs T 0 (T - 1)
  = Ok (map (fun b => count_eq xs (Z.of_nat b)) (seq 0 (Z.to_nat T))).
Proof.
  intros HT Hxs. unfold histc_cuda.
  destruct (Z.leb_spec T 0); [lia |].
  destruct (Z.eq_dec T 1) as [-> | HT1].
  - assert (Hz : Forall (fun x => x = 0) xs).
    { eapply Forall_impl; [| exact Hxs]. cbv beta. intros; lia. }
    assert (Hext : (if (0 =? 1 - 1) && negb (len xs =? 0)
                    then (list_min xs, list_max xs) else (0, 1 - 1))
                   = (0, 0)).
    { destruct ((0 =? 1 - 1) && negb (len xs =? 0)); [| reflexivity].
      destruct Hz as [| x l -> Hl]; [reflexivity |].
      cbn [list_min list_max].
      now rewrite fold_min_zero, fold_max_zero. }
    rewrite Hext. cbn [Z.eqb]. f_equal.
    apply map_ext. intros b. apply count_bin_eq.
    eapply Forall_impl; [| exact Hz]. cbv beta. intros x ->. reflexivity.
  - destruct (Z.eqb_spec 0 (T - 1)); [lia |]. cbn [andb].
    destruct (Z.eqb_spec 0 (T - 1)); [lia |]. f_equal.
    apply map_ext. intros b. apply count_bin_eq.
    eapply Forall_impl; [| exact Hxs]. cbv beta.
    intros x Hx. apply histc_bin_id; lia.
Qed.

Lemma sum_map_add {A : Type} (f g : A -> Z) (l : list A) :
  sum (map (fun x => f x + g x) l) = sum (map f l) + sum (map g l).
Proof. induction l as [| x l IH]; simpl; [reflexivity | rewrite IH; lia]. Qed.

Lemma sum_indicator (x : Z) (n : nat) : forall s : nat,
  sum (map (fun b => if x =? Z.of_nat b then 1 else 0) (seq s n))
  = if (Z.of_nat s <=? x) && (x <? Z.of_nat (s + n)) then 1 else 0.
Proof.
  induction n as [| n IH]; intros s.
  - simpl. rewrite Nat.add_0_r.
    destruct (Z.leb_spec (Z.of_nat s) x), (Z.ltb_spec x (Z.of_nat s));
      try reflexivity; lia.
  - cbn [seq map sum fold_right]. fold (sum (map (fun b => if x =? Z.of_nat b then 1 else 0) (seq (S s) n))).
    rewrite IH.
    destruct (Z.eqb_spec x (Z.of_nat s)),
             (Z.leb_spec (Z.of_nat (S s)) x),
             (Z.ltb_spec x (Z.of_nat (S s + n))),
             (Z.leb_spec (Z.of_nat s) x),
             (Z.ltb_spec x (Z.of_nat (s + S n)));
      cbn [andb]; lia.
Qed.

Lemma sum_count_eq (xs : list Z) (n : nat) :
  Forall (fun x => 0 <= x < Z.of_nat n) xs ->
  sum (map (fun b => count_eq xs (Z.of_nat b)) (seq 0 n)) = len xs.
Proof.
  induction 1 as [| x l Hx _ IH].
  - unfold count_eq, len. simpl.
    induction (seq 0 n); simpl; auto.
  - rewrite (map_ext _ (fun b => (if x =? Z.of_nat b then 1 else 0)
                                 + count_eq l (Z.of_nat b))).
    + rewrite sum_map_add, IH, sum_indicator.
      destruct (Z.leb_spec (Z.of_nat 0) x), (Z.ltb_spec x (Z.of_nat (0 + n)));
        cbn [andb]; unfold len; cbn [List.length]; lia.
    + intros b. unfold count_eq, len. cbn [filter].
      destruct (x =? Z.of_nat b); cbn [List.length]; lia.
Qed.

Lemma Forall_firstn {A : Type} (P : A -> Prop) (l : list A) :
  forall n, Forall P l -> Forall P (firstn n l).
Proof.
  induction l as [| x l IH]; intros [| n] H; simpl; auto.
  inversion H; subst. constructor; auto.
Qed.

Lemma len_py_slice_prefix {A : Type} (n : Z) (l : list A) :
  0 <= n -> len (py_slice None (Some n) l) = Z.min n (len l).
Proof.
  intros Hn. rewrite py_slice_prefix by exact Hn.
  unfold len. rewrite length_firstn. lia.
Qed.

(** Every index that [argmax] returns on rows cut to [T] columns is a
    symbol index. *)
Lemma argmax_rows_range (T : Z) (rows : list (list Q)) :
  0 <= T ->
  forall idx,
    mapM argmax (map (py_slice None (Some T)) rows) = Ok idx ->
    List.length idx = List.length rows /\ Forall (fun x => 0 <= x < T) idx.
Proof.
  intros HT. induction rows as [| r rows IH]; intros idx H.
  - inversion H. split; [reflexivity | constructor].
  - cbn [map mapM] in H.
    destruct (argmax (py_slice None (Some T) r)) as [y |] eqn:Ey;
      [| discriminate].
    cbn [bind] in H.
    destruct (mapM argmax (map (py_slice None (Some T)) rows)) as [ys |];
      [| discriminate].
    cbn [bind] in H. inversion H; subst idx.
    destruct (IH ys eq_refl) as [Hl Hr].
    split; [simpl; congruence |].
    constructor; [| exact Hr].
    apply argmax_range in Ey.
    rewrite len_py_slice_prefix in Ey by exact HT. lia.
Qed.

Lemma attention_durations_sum (ali : list (list Q)) (mel_len T : Z)
    (durs : list Z) :
  0 <= mel_len <= len ali ->
  attention_durations Cuda ali mel_len T = Ok durs ->
  len durs = T /\ sum durs = mel_len /\ Forall (fun d => 0 <= d) durs.
Proof.
  intros Hm H. unfold attention_durations, histc in H.
  destruct (mapM argmax _) as [idx |] eqn:Eidx; [| discriminate].
  cbn [bind] in H.
  destruct (Z.le_gt_cases T 0) as [HT | HT].
  { unfold histc, histc_cuda in H. destruct (Z.leb_spec T 0); [discriminate | lia]. }
  destruct (argmax_rows_range T _ ltac:(lia) idx Eidx) as [Hlen Hrange].
  rewrite histc_counts in H by (auto; lia).
  inversion H; subst durs. clear H.
  split.
  { unfold len. rewrite length_map, length_seq. lia. }
  split.
  { rewrite sum_count_eq.
    - unfold len. rewrite Hlen.
      fold (len (py_slice None (Some mel_len) ali)).
      rewrite len_py_slice_prefix by lia. lia.
    - eapply Forall_impl; [| exact Hrange]. cbv beta. intros; lia. }
  apply Forall_forall. intros d Hd.
  apply in_map_iff in Hd. destruct Hd as [b [<- _]].
  unfold count_eq. apply len_nonneg.
Qed.

Lemma argmax_rows_total (ali : list (list Q)) (mel_len T : Z) :
  1 <= T -> 0 <= mel_len ->
  Forall (fun r => r <> []) ali ->
  exists idx,
    mapM argmax
      (map (py_slice None (Some T)) (py_slice None (Some mel_len) ali))
    = Ok idx.
Proof.
  intros HT Hm Hrows. apply mapM_total.
  apply Forall_forall. intros r Hr.
  apply in_map_iff in Hr. destruct Hr as [r0 [<- Hr0]].
  rewrite py_slice_prefix in Hr0 by exact Hm.
  assert (Hne : r0 <> []).
  { pose proof (Forall_firstn _ ali (Z.to_nat mel_len) Hrows) as HF.
    rewrite Forall_forall in HF. exact (HF r0 Hr0). }
  rewrite py_slice_prefix by lia.
  destruct r0 as [| x r0]; [congruence |].
  destruct (Z.to_nat T) as [| k] eqn:Ek; [lia |].
  cbn [firstn argmax]. eexists. reflexivity.
Qed.

Lemma attention_durations_returns (ali : list (list Q)) (mel_len T : Z) :
  1 <= T -> 0 <= mel_len ->
  Forall (fun r => r <> []) ali ->
  exists durs, attention_durations Cuda ali mel_len T = Ok durs.
Proof.
  intros HT Hm Hrows. unfold attention_durations, histc.
  destruct (argmax_rows_total ali mel_len T HT Hm Hrows) as [idx Hidx].
  rewrite Hidx. cbn [bind].
  destruct (argmax_rows_range T _ ltac:(lia) idx Hidx) as [_ Hrange].
  rewrite histc_counts by auto. eexists. reflexivity.
Qed.

(** On the CPU the argmax succeeds and the histogram refuses its result. *)
Lemma attention_durations_cpu (ali : list (list Q)) (mel_len T : Z) :
  1 <= T -> 0 <= mel_len ->
  Forall (fun r => r <> []) ali ->
  attention_durations Cpu ali mel_len T
  = Raise (RuntimeError "histogram_cpu not implemented for Long").
Proof.
  intros HT Hm Hrows. unfold attention_durations, histc.
  destruct (argmax_rows_total ali mel_len T HT Hm Hrows) as [idx Hidx].
  rewrite Hidx. reflexivity.
Qed.

(** *** One-hot rows *)

Lemma mapM_app {A B : Type} (f : A -> result B) (l m : list A)
    (ys zs : list B) :
  mapM f l = Ok ys -> mapM f m = Ok zs -> mapM f (l ++ m) = Ok (ys ++ zs).
Proof.
  revert ys. induction l as [| x l IH]; intros ys Hl Hm.
  - inversion Hl. exact Hm.
  - cbn [mapM app] in *.
    destruct (f x) as [y |]; [| discriminate]. cbn [bind] in *.
    destruct (mapM f l) as [ys' |]; [| discriminate]. cbn [bind] in *.
    inversion Hl; subst ys.
    rewrite (IH ys' eq_refl Hm). reflexivity.
Qed.

Lemma mapM_repeat {A B : Type} (f : A -> result B) (x : A) (y : B) (n : nat) :
  f x = Ok y -> mapM f (repeat x n) = Ok (repeat y n).
Proof.
  intros H. induction n as [| n IH]; [reflexivity |].
  cbn [repeat mapM]. rewrite H, IH. reflexivity.
Qed.

Lemma argmax_from_after_one (i : nat) :
  forall n s best_i k,
    argmax_from best_i 1 k
      (map (fun j => if Nat.eqb j i then 1%Q else 0%Q) (seq s n)) = best_i.
Proof.
  induction n as [| n IH]; intros s best_i k; [reflexivity |].
  cbn [seq map argmax_from].
  destruct (Nat.eqb s i).
  - change (Qltb 1 1) with false. cbv iota. apply IH.
  - change (Qltb 1 0) with false. cbv iota. apply IH.
Qed.

Lemma argmax_from_before_one (i : nat) :
  forall n s best_i,
    (s <= i < s + n)%nat ->
    argmax_from best_i 0 (Z.of_nat s)
      (map (fun j => if Nat.eqb j i then 1%Q else 0%Q) (seq s n))
    = Z.of_nat i.
Proof.
  induction n as [| n IH]; intros s best_i H; [lia |].
  cbn [seq map argmax_from].
  destruct (Nat.eqb_spec s i) as [-> | Hne].
  - change (Qltb 0 1) with true. cbv iota. apply argmax_from_after_one.
  - change (Qltb 0 0) with false. cbv iota.
    replace (Z.of_nat s + 1) with (Z.of_nat (S s)) by lia.
    apply IH. lia.
Qed.

Lemma argmax_one_hot (T i : nat) :
  (i < T)%nat -> argmax (one_hot T i) = Ok (Z.of_nat i).
Proof.
  intros H. unfold one_hot. destruct T as [| T]; [lia |].
  cbn [seq map argmax]. f_equal.
  destruct (Nat.eqb_spec 0 i) as [<- | Hne].
  - apply argmax_from_after_one.
  - change 1 with (Z.of_nat 1). apply argmax_from_before_one. lia.
Qed.

Lemma len_one_hot (T i : nat) : len (one_hot T i) = Z.of_nat T.
Proof. unfold len, one_hot. rewrite length_map, length_seq. reflexivity. Qed.

(** The frame-to-symbol indices that one-hot rows give back. *)
Lemma argmax_one_hot_rows (T : nat) (ps : list (nat * nat)) :
  Forall (fun p => (fst p < T)%nat) ps ->
  mapM argmax
    (map (py_slice None (Some (Z.of_nat T)))
       (List.concat (map (fun p => repeat (one_hot T (fst p)) (snd p)) ps)))
  = Ok (List.concat (map (fun p => repeat (Z.of_nat (fst p)) (snd p)) ps)).
Proof.
  induction ps as [| [i d] ps IH]; intros H; [reflexivity |].
  inversion H as [| ? ? Hi Hps]; subst. cbn [fst snd] in Hi.
  cbn [map List.concat fst snd]. rewrite map_app.
  apply mapM_app; [| exact (IH Hps)].
  rewrite map_repeat. apply mapM_repeat.
  rewrite <- (len_one_hot T i). rewrite py_slice_whole.
  apply argmax_one_hot. exact Hi.
Qed.

Lemma count_eq_app (xs ys : list Z) (b : Z) :
  count_eq (xs ++ ys) b = count_eq xs b + count_eq ys b.
Proof. unfold count_eq. rewrite filter_app. apply len_app. Qed.

Lemma count_eq_repeat (x b : Z) (n : nat) :
  count_eq (repeat x n) b = if x =? b then Z.of_nat n else 0.
Proof.
  unfold count_eq. induction n as [| n IH].
  - destruct (x =? b); reflexivity.
  - cbn [repeat filter]. destruct (x =? b) eqn:E.
    + unfold len in *. cbn [List.length]. lia.
    + exact IH.
Qed.

Lemma count_eq_frames (ds : list nat) (b : nat) :
  forall s,
    count_eq
      (List.concat (map (fun p => repeat (Z.of_nat (fst p)) (snd p))
                        (combine (seq s (List.length ds)) ds)))
      (Z.of_nat b)
    = Z.of_nat (if (s <=? b)%nat then nth (b - s) ds 0%nat else 0%nat).
Proof.
  induction ds as [| d ds IH]; intros s.
  - cbn. destruct (s <=? b)%nat; [destruct (b - s)%nat |]; reflexivity.
  - cbn [List.length seq combine map List.concat fst snd].
    rewrite count_eq_app, count_eq_repeat, IH.
    destruct (Z.eqb_spec (Z.of_nat s) (Z.of_nat b)) as [E | E].
    + assert (s = b) by lia. subst s.
      destruct (Nat.leb_spec (S b) b); [lia |].
      destruct (Nat.leb_spec b b); [| lia].
      replace (b - b)%nat with 0%nat by lia. cbn [nth]. lia.
    + destruct (Nat.leb_spec (S s) b), (Nat.leb_spec s b); try lia.
      replace (b - s)%nat with (S (b - S s)) by lia. cbn [nth]. lia.
Qed.

Lemma map_nth_seq_id {A : Type} (d : A) (l : list A) :
  map (fun b => nth b l d) (seq 0 (List.length l)) = l.
Proof.
  induction l as [| x l IH]; [reflexivity |].
  cbn [List.length seq map nth]. f_equal.
  rewrite <- seq_shift, map_map. exact IH.
Qed.

Lemma combine_seq_fst_lt (ds : list nat) :
  forall s, Forall (fun p : nat * nat => (fst p < s + List.length ds)%nat)
                   (combine (seq s (List.length ds)) ds).
Proof.
  induction ds as [| d ds IH]; intros s; [constructor |].
  cbn [List.length seq combine]. constructor; [cbn; lia |].
  eapply Forall_impl; [| exact (IH (S s))]. cbv beta. intros; lia.
Qed.

Lemma map_snd_combine_seq (ds : list nat) :
  forall s, map snd (combine (seq s (List.length ds)) ds) = ds.
Proof.
  induction ds as [| d ds IH]; intros s; [reflexivity |].
  cbn [List.length seq combine map snd]. f_equal. apply IH.
Qed.

Lemma len_one_hot_alignment (ds : list nat) :
  len (one_hot_alignment ds) = Z.of_nat (list_sum ds).
Proof.
  unfold len, one_hot_alignment. rewrite length_concat, map_map.
  f_equal. f_equal.
  rewrite <- (map_snd_combine_seq ds 0) at 3.
  apply map_ext. intros p. apply repeat_length.
Qed.

Lemma attention_one_hot_round_trip (ds : list nat) :
  ds <> [] ->
  attention_durations Cuda (one_hot_alignment ds) (Z.of_nat (list_sum ds)) (len ds)
  = Ok (map Z.of_nat ds).
Proof.
  intros Hne. unfold attention_durations, histc.
  rewrite <- len_one_hot_alignment, py_slice_whole.
  change (len ds) with (Z.of_nat (List.length ds)).
  pose proof (argmax_one_hot_rows (List.length ds)
                (combine (seq 0 (List.length ds)) ds)
                (combine_seq_fst_lt ds 0)) as Hidx.
  fold (one_hot_alignment ds) in Hidx.
  rewrite Hidx. cbn [bind].
  destruct (argmax_rows_range _ _ (Nat2Z.is_nonneg _) _ Hidx) as [_ Hrange].
  assert (1 <= Z.of_nat (List.length ds)).
  { destruct ds; [congruence | cbn [List.length]; lia]. }
  rewrite histc_counts by auto.
  rewrite Nat2Z.id. f_equal.
  transitivity
    (map Z.of_nat (map (fun b => nth b ds 0%nat) (seq 0 (List.length ds))));
    [| now rewrite map_nth_seq_id].
  rewrite map_map.
  apply map_ext. intros b. rewrite count_eq_frames.
  cbn [Nat.leb]. rewrite Nat.sub_0_r. reflexivity.
Qed.

Lemma rows_of_width_nonempty (ali : list (list Q)) (T : Z) :
  1 <= T -> Forall (fun r => len r = T) ali -> Forall (fun r => r <> []) ali.
Proof.
  intros HT H. eapply Forall_impl; [| exact H]. cbv beta.
  intros r Hr ->. cbn in Hr. lia.
Qed.

(** C7.  On an attention matrix of [mel_len] rows and [T >= 1] columns that
    lives on the GPU, the argmax-and-histogram step returns a vector of
    length [T] whose entries sum to [mel_len], with nothing adjusted
    afterwards, and on the one-hot matrix that realises a duration sequence
    it returns that sequence.  On the CPU, where the tensors are unless
    [--cuda] is given, the same step returns nothing for any such matrix:
    the histogram is not defined for the 64-bit indices of the argmax. *)
Theorem attention_durations_exact :
  (forall (ali : list (list Q)) (mel_len T : Z),
      1 <= T ->
      len ali = mel_len ->
      Forall (fun r => len r = T) ali ->
      attention_durations Cpu ali mel_len T
      = Raise (RuntimeError "histogram_cpu not implemented for Long"))
  /\ attention_durations (device_of false)
       (one_hot_alignment [2%nat; 0%nat; 3%nat]) 5 3
     = Raise (RuntimeError "histogram_cpu not implemented for Long")
  /\ (forall (ali : list (list Q)) (mel_len T : Z),
         1 <= T ->
         len ali = mel_len ->
         Forall (fun r => len r = T) ali ->
         exists durs,
           attention_durations Cuda ali mel_len T = Ok durs
           /\ len durs = T /\ sum durs = mel_len)
  /\ (forall ds : list nat,
         ds <> [] ->
         attention_durations Cuda (one_hot_alignment ds)
           (Z.of_nat (list_sum ds)) (len ds)
         = Ok (map Z.of_nat ds)).
Proof.
  split; [| split; [reflexivity | split;
                                    [| exact attention_one_hot_round_trip]]].
  - intros ali mel_len T HT Hlen Hrows.
    apply attention_durations_cpu; [exact HT | |].
    + pose proof (len_nonneg ali). lia.
    + exact (rows_of_width_nonempty ali T HT Hrows).
  - intros ali mel_len T HT Hlen Hrows.
    assert (Hm : 0 <= mel_len <= len ali).
    { pose proof (len_nonneg ali). lia. }
    destruct (attention_durations_returns ali mel_len T HT (proj1 Hm)
                (rows_of_width_nonempty ali T HT Hrows))
      as [durs Hd].
    exists durs. split; [exact Hd |].
    destruct (attention_durations_sum ali mel_len T durs Hm Hd)
      as (H1 & H2 & _).
    auto.
Qed.

Lemma attention_durations_exact_witness :
  attention_durations Cpu [[1%Q; 0%Q]; [0%Q; 1%Q]; [0%Q; 1%Q]] 3 2
  = Raise (RuntimeError "histogram_cpu not implemented for Long")
  /\ (exists durs,
         attention_durations Cuda [[1%Q; 0%Q]; [0%Q; 1%Q]; [0%Q; 1%Q]] 3 2
         = Ok durs
         /\ len durs = 2 /\ sum durs = 3)
  /\ attention_durations Cuda (one_hot_alignment [2%nat; 0%nat; 3%nat])
       (Z.of_nat (list_sum [2%nat; 0%nat; 3%nat]))
       (len [2%nat; 0%nat; 3%nat])
     = Ok (map Z.of_nat [2%nat; 0%nat; 3%nat]).
Proof.
  split; [| split].
  - apply (proj1 attention_durations_exact); [lia | reflexivity |].
    repeat constructor.
  - apply (proj1 (proj2 (proj2 attention_durations_exact)));
      [lia | reflexivity |].
    repeat constructor.
  - apply (proj2 (proj2 (proj2 attention_durations_exact))). discriminate.
Defined.

(** * Further properties of the extraction code *)

(** ** RunLengthEncoder: round trip and maximal runs *)

Lemma rle_fold_keeps_u1 {A : Type} (eqb : A -> A -> bool) (l : list A) :
  forall (a : A) (st : rle_state),
    u1 st <> None ->
    u1 (fold_left (rle_step eqb) (combine (a :: l) l) st) <> None.
Proof.
  induction l as [| b l IH]; intros a st Hst; [exact Hst |].
  change (combine (a :: b :: l) (b :: l)) with ((a, b) :: combine (b :: l) l).
  cbn [fold_left]. apply IH.
  unfold rle_step. destruct (eqb b a); cbn; discriminate.
Qed.

Lemma run_length_encode_returns_iff {A : Type} (eqb : A -> A -> bool)
    (symbols : list A) :
  (exists rl, run_length_encode eqb symbols = Ok rl)
  <-> (2 <= List.length symbols)%nat.
Proof.
  split.
  - intros [rl H]. destruct symbols as [| x [| y l]];
      try discriminate H. cbn [List.length]. lia.
  - intros H. destruct symbols as [| x [| y l]]; cbn [List.length] in H;
      try lia.
    unfold run_length_encode, rle_loop.
    change (tl (x :: y :: l)) with (y :: l).
    change (combine (x :: y :: l) (y :: l))
      with ((x, y) :: combine (y :: l) l).
    cbn [fold_left].
    pose proof (rle_fold_keeps_u1 eqb l y
                  (rle_step eqb (mk_rle [] 1 None) (x, y))) as Hu.
    destruct (u1 (fold_left (rle_step eqb) (combine (y :: l) l)
                    (rle_step eqb (mk_rle [] 1 None) (x, y)))).
    + eexists. reflexivity.
    + exfalso. apply Hu; [| reflexivity].
      unfold rle_step. destruct (eqb y x); cbn; discriminate.
Qed.

(** A sequence of two symbols or more is encoded into runs of length one
    or more that spell it again, symbol by symbol; the run lengths add up to
    the number of symbols. *)
Theorem run_length_encode_round_trip :
  forall (A : Type) (eqb : A -> A -> bool) (symbols : list A),
    (forall a b, eqb a b = true -> a = b) ->
    (2 <= List.length symbols)%nat ->
    exists rl,
      run_length_encode eqb symbols = Ok rl
      /\ expand rl = symbols
      /\ Forall (fun p => 1 <= snd p) rl
      /\ sum (map snd rl) = len symbols.
Proof.
  intros A eqb symbols Heq Hlen.
  destruct symbols as [| x [| y l]]; cbn [List.length] in Hlen; try lia.
  destruct (run_length_encode_two_or_more eqb Heq x y l)
    as (rl & H & _ & Hpos & Hsum & Hexp).
  exists rl. auto.
Qed.

Lemma run_length_encode_round_trip_witness :
  exists rl,
    run_length_encode Z.eqb [7; 7; 3] = Ok rl
    /\ expand rl = [7; 7; 3]
    /\ Forall (fun p => 1 <= snd p) rl
    /\ sum (map snd rl) = len [7; 7; 3].
Proof.
  apply (run_length_encode_round_trip Z Z.eqb [7; 7; 3]).
  - intros a b H. apply Z.eqb_eq. exact H.
  - simpl. lia.
Defined.

Lemma runs_distinct_snoc {A : Type} (l : list (A * Z)) (a b : A) (d e : Z) :
  runs_distinct (l ++ [(a, d)]) -> a <> b ->
  runs_distinct ((l ++ [(a, d)]) ++ [(b, e)]).
Proof.
  induction l as [| p l IH]; intros H Hab.
  - cbn. auto.
  - destruct l as [| q l].
    + cbn in *. tauto.
    + cbn [app runs_distinct] in *. destruct H as [Hpq H].
      split; [exact Hpq | apply IH; auto].
Qed.

Lemma runs_distinct_open_run {A : Type} (l : list (A * Z)) (a : A) (d e : Z) :
  runs_distinct (l ++ [(a, d)]) -> runs_distinct (l ++ [(a, e)]).
Proof.
  induction l as [| p l IH]; intros H.
  - exact I.
  - destruct l as [| q l].
    + cbn in *. tauto.
    + cbn [app runs_distinct] in *. destruct H as [Hpq H].
      split; [exact Hpq | apply IH; auto].
Qed.

Lemma runs_distinct_at {A : Type} (l1 l2 : list (A * Z)) (p q : A * Z) :
  runs_distinct (l1 ++ p :: q :: l2) -> fst p <> fst q.
Proof.
  induction l1 as [| r l1 IH]; intros H.
  - cbn in H. tauto.
  - apply IH. destruct l1; cbn [app runs_distinct] in *; tauto.
Qed.

Lemma rle_fold_distinct {A : Type} (eqb : A -> A -> bool) (l : list A) :
  (forall a b, eqb a b = true <-> a = b) ->
  forall (a : A) (st : rle_state),
    runs_distinct (run_lengths st ++ [(a, dur st)]) ->
    let st' := fold_left (rle_step eqb) (combine (a :: l) l) st in
    runs_distinct (run_lengths st' ++ [(last l a, dur st')]).
Proof.
  intros Heq. induction l as [| b l IH]; intros a st H; [exact H |].
  change (combine (a :: b :: l) (b :: l)) with ((a, b) :: combine (b :: l) l).
  cbn [fold_left]. cbv zeta.
  replace (last (b :: l) a) with (last l b)
    by (destruct l; [reflexivity | symmetry; apply last_cons_default]).
  apply IH. unfold rle_step.
  destruct (eqb b a) eqn:E; cbn [run_lengths dur].
  - apply Heq in E. subst b.
    apply (runs_distinct_open_run _ a (dur st)). exact H.
  - apply runs_distinct_snoc; [exact H |].
    intros ->. rewrite (proj2 (Heq b b) eq_refl) in E. discriminate.
Qed.

(** The encoder never splits a run: two neighbouring runs of its output
    carry different symbols. *)
Theorem run_length_encode_maximal_runs :
  forall (A : Type) (eqb : A -> A -> bool) (symbols : list A)
         (rl l1 l2 : list (A * Z)) (p q : A * Z),
    (forall a b, eqb a b = true <-> a = b) ->
    run_length_encode eqb symbols = Ok rl ->
    rl = l1 ++ p :: q :: l2 ->
    fst p <> fst q.
Proof.
  intros A eqb symbols rl l1 l2 p q Heq H Hrl.
  apply (runs_distinct_at l1 l2). rewrite <- Hrl. clear Hrl.
  destruct symbols as [| x [| y l]]; try discriminate H.
  unfold run_length_encode, rle_loop in H.
  change (tl (x :: y :: l)) with (y :: l) in H.
  pose proof (rle_fold eqb (fun a b => proj1 (Heq a b)) (y :: l) x
                (mk_rle [] 1 None) ltac:(cbn; lia) ltac:(constructor)) as Hf.
  cbv zeta in Hf. destruct Hf as (_ & _ & _ & _ & Hu).
  rewrite (Hu ltac:(discriminate)) in H. inversion H; subst rl.
  apply (rle_fold_distinct eqb (y :: l) Heq x (mk_rle [] 1 None)).
  exact I.
Qed.

Lemma run_length_encode_maximal_runs_witness : fst (7, 2) <> fst (3, 1).
Proof.
  apply (run_length_encode_maximal_runs Z Z.eqb [7; 7; 3]
           [(7, 2); (3, 1)] [] [] (7, 2) (3, 1)).
  - intros a b. apply Z.eqb_eq.
  - reflexivity.
  - reflexivity.
Defined.

(** ** ChunkSplitter: every sign of [n], and what is rejected *)

(** Zero parts divide by zero and a negative count is refused by the array
    constructor.  Whatever [dur_chunk_sizes] returns is a split of [n]:
    [k > 0] parts that sum to [n] and are each the floor of [n / k] or one
    more. *)
Theorem dur_chunk_sizes_sound :
  forall n k : Z,
    (k = 0 -> dur_chunk_sizes n k = Raise ZeroDivisionError)
    /\ (k < 0 ->
        dur_chunk_sizes n k
        = Raise (ValueError "negative dimensions are not allowed"))
    /\ (forall ret,
           dur_chunk_sizes n k = Ok ret ->
           0 < k
           /\ len ret = k
           /\ sum ret = n
           /\ Forall (fun x => x = n / k \/ x = n / k + 1) ret).
Proof.
  intros n k. split; [intros ->; reflexivity |]. split.
  - intros Hk. unfold dur_chunk_sizes.
    destruct (Z.ltb_spec k 0); [reflexivity | lia].
  - intros ret H. unfold dur_chunk_sizes in H.
    destruct (Z.ltb_spec k 0); [discriminate H |].
    destruct (Z.eqb_spec k 0); [discriminate H |].
    assert (Hk : 0 < k) by lia.
    destruct (fits_int32 (n / k)) eqn:Eq; [| discriminate H].
    destruct (fits_int32 (n / k + 1)) eqn:Eq1; [| discriminate H].
    cbn [negb orb] in H.
    rewrite chunk_array in H by exact Hk.
    rewrite chunk_array_sum in H by exact Hk.
    destruct (wrap_int64 n =? n); [| discriminate H].
    cbn [assert_ bind] in H. injection H as <-.
    pose proof (Z.mod_pos_bound n k Hk) as Hr.
    unfold fits_int32 in Eq, Eq1.
    apply andb_true_iff in Eq. destruct Eq as [Eq Eq'].
    apply andb_true_iff in Eq1. destruct Eq1 as [Eq1 Eq1'].
    apply Z.leb_le in Eq, Eq', Eq1, Eq1'.
    split; [exact Hk |].
    split; [rewrite len_app, !len_repeat; lia |].
    split; [apply chunk_array_sum; exact Hk |].
    apply Forall_forall; intros x Hx;
      apply in_app_or in Hx; destruct Hx as [Hx | Hx];
      apply In_repeat in Hx; subst x; auto.
Qed.

Lemma dur_chunk_sizes_sound_witness :
  dur_chunk_sizes 5 0 = Raise ZeroDivisionError
  /\ (0 < 3
      /\ len [2; 2; 1] = 3
      /\ sum [2; 2; 1] = 5
      /\ Forall (fun x => x = 5 / 3 \/ x = 5 / 3 + 1) [2; 2; 1]).
Proof.
  split.
  - apply (proj1 (dur_chunk_sizes_sound 5 0)). reflexivity.
  - apply (proj2 (proj2 (dur_chunk_sizes_sound 5 3))). reflexivity.
Defined.

(** A negative [n] is split as well.  When [n] fits 64 bits and the floor
    of [n / k] and its successor fit 32 bits, the function returns [k]
    parts that sum to [n], each the floor of [n / k] or one more, and none
    of them has the sign opposite to [n]. *)
Theorem dur_chunk_sizes_any_sign :
  forall n k : Z,
    0 < k ->
    - 2 ^ 31 <= n / k -> n / k + 1 <= 2 ^ 31 - 1 ->
    - 2 ^ 63 <= n <= 2 ^ 63 - 1 ->
    exists ret,
      dur_chunk_sizes n k = Ok ret
      /\ len ret = k
      /\ sum ret = n
      /\ Forall (fun x => x = n / k \/ x = n / k + 1) ret
      /\ (0 <= n -> Forall (fun x => 0 <= x) ret)
      /\ (n <= 0 -> Forall (fun x => x <= 0) ret).
Proof.
  intros n k Hk Hq Hq1 Hn64.
  rewrite dur_chunk_sizes_ok by assumption.
  pose proof (Z.mod_pos_bound n k Hk) as Hr.
  pose proof (Z.div_mod n k ltac:(lia)) as Hdm.
  eexists. split; [reflexivity |].
  split.
  { rewrite len_app, !len_repeat, !Z2Nat.id by lia. lia. }
  split; [apply chunk_array_sum; exact Hk |].
  assert (Hin : forall x,
             In x (repeat (n / k + 1) (Z.to_nat (n mod k))
                   ++ repeat (n / k) (Z.to_nat (k - n mod k))) ->
             (x = n / k + 1 /\ 0 < n mod k) \/ x = n / k).
  { intros x Hx. apply in_app_or in Hx. destruct Hx as [Hx | Hx].
    - left. split; [exact (In_repeat _ _ _ Hx) |].
      destruct (Z.to_nat (n mod k)) eqn:E; [destruct Hx | lia].
    - right. exact (In_repeat _ _ _ Hx). }
  split.
  { apply Forall_forall. intros x Hx. destruct (Hin x Hx); tauto. }
  split.
  - intros Hn. apply Forall_forall. intros x Hx.
    pose proof (Z.div_pos n k Hn Hk). destruct (Hin x Hx); lia.
  - intros Hn. apply Forall_forall. intros x Hx.
    destruct (Hin x Hx) as [[-> Hm] | ->]; nia.
Qed.

Lemma dur_chunk_sizes_any_sign_witness :
  exists ret,
    dur_chunk_sizes (-4) 3 = Ok ret
    /\ len ret = 3
    /\ sum ret = -4
    /\ Forall (fun x => x = -4 / 3 \/ x = -4 / 3 + 1) ret
    /\ (0 <= -4 -> Forall (fun x => 0 <= x) ret)
    /\ (-4 <= 0 -> Forall (fun x => x <= 0) ret).
Proof. apply (dur_chunk_sizes_any_sign (-4) 3); cbn; lia. Defined.

(** ** Unit-run-length strategy: what is persisted *)

Lemma Forall_removelast {A : Type} (P : A -> Prop) (l : list A) :
  Forall P l -> Forall P (removelast l).
Proof.
  induction l as [| x l IH]; intros H; [constructor |].
  inversion H; subst. destruct l as [| y l]; [constructor |].
  change (removelast (x :: y :: l)) with (x :: removelast (y :: l)).
  constructor; auto.
Qed.

Lemma combine_fst_snd {A B : Type} (l : list (A * B)) :
  combine (map fst l) (map snd l) = l.
Proof.
  induction l as [| [a b] l IH]; [reflexivity |].
  cbn [map combine fst snd]. now rewrite IH.
Qed.

Lemma unit_durations_ok_iff :
  forall (fname : string) (text : list Z) (mel_len : Z),
    (exists out, unit_durations fname text mel_len = Ok out)
    <-> (2 <= List.length text)%nat.
Proof.
  intros fname text mel_len. split.
  - intros [out H]. apply (run_length_encode_returns_iff Z.eqb).
    unfold unit_durations in H.
    destruct (run_length_encode Z.eqb text) as [rl |]; [| discriminate].
    eexists. reflexivity.
  - intros H. apply (run_length_encode_returns_iff Z.eqb) in H.
    destruct H as [rl H].
    rewrite (unit_durations_of_runs fname text mel_len rl H).
    eexists. reflexivity.
Qed.

(** The unit strategy returns exactly on utterances of two units or more,
    whatever the mel length is; a shorter one stops it with the error of the
    encoder. *)
Theorem unit_durations_returns_iff :
  forall (fname : string) (text : list Z) (mel_len : Z),
    ((exists out, unit_durations fname text mel_len = Ok out)
     <-> (2 <= List.length text)%nat)
    /\ ((List.length text <= 1)%nat ->
        unit_durations fname text mel_len = Raise (UnboundLocalError "u1")).
Proof.
  intros fname text mel_len. split; [apply unit_durations_ok_iff |].
  intros H. unfold unit_durations.
  rewrite (run_length_encode_short Z.eqb text H). reflexivity.
Qed.

Lemma unit_durations_runs (fname : string) (text : list Z) (mel_len : Z)
    (out : unit_out) :
  unit_durations fname text mel_len = Ok out ->
  exists rl,
    run_length_encode Z.eqb text = Ok rl
    /\ rl <> []
    /\ Forall (fun p => 1 <= snd p) rl
    /\ sum (map snd rl) = len text
    /\ expand rl = text
    /\ uo_units out = map fst rl
    /\ uo_durs out
       = removelast (map snd rl)
         ++ [last (map snd rl) 0 + (mel_len - len text)]
    /\ uo_log out
       = (if (len text =? mel_len) || (mel_len - len text =? 1) then []
          else [mk_mismatch fname mel_len (len text)]).
Proof.
  intros H.
  assert (Hlen : (2 <= List.length text)%nat).
  { apply (unit_durations_ok_iff fname text mel_len). eauto. }
  destruct text as [| x [| y l]]; cbn [List.length] in Hlen; try lia.
  destruct (run_length_encode_two_or_more Z.eqb
              (fun a b => proj1 (Z.eqb_eq a b)) x y l)
    as (rl & Hrl & Hne & Hpos & Hsum & Hexp).
  rewrite (unit_durations_of_runs fname _ mel_len rl Hrl) in H.
  cbv zeta in H. rewrite Hsum in H.
  remember (len (x :: y :: l)) as n eqn:Hn.
  remember (x :: y :: l) as text eqn:Ht.
  injection H as H. subst out.
  cbn [uo_units uo_durs uo_log].
  exists rl. repeat (split; [assumption || reflexivity |]).
  assert (Hd : map snd rl <> []) by (destruct rl; [congruence | discriminate]).
  destruct (Z.eqb_spec n mel_len) as [E | E].
  - split; [| reflexivity].
    rewrite (app_removelast_last 0 Hd) at 1.
    f_equal. f_equal. lia.
  - split; reflexivity.
Qed.

(** Whatever the unit strategy persists has one duration per unit and sums
    to the mel length; every run but the last keeps its length of one or
    more, and the last one takes what is left of the mel.  Nothing rejects a
    mel shorter than the earlier runs: the last duration is then negative. *)
Theorem unit_durations_shape :
  forall (fname : string) (text : list Z) (mel_len : Z) (out : unit_out),
    unit_durations fname text mel_len = Ok out ->
    len (uo_units out) = len (uo_durs out)
    /\ sum (uo_durs out) = mel_len
    /\ Forall (fun d => 1 <= d) (removelast (uo_durs out))
    /\ last (uo_durs out) 0 = mel_len - sum (removelast (uo_durs out))
    /\ ((exists d, In d (uo_durs out) /\ d < 0)
        <-> mel_len < sum (removelast (uo_durs out))).
Proof.
  intros fname text mel_len out H.
  destruct (unit_durations_runs fname text mel_len out H)
    as (rl & _ & Hne & Hpos & Hsum & _ & Hu & HD & _).
  assert (Hd : map snd rl <> []) by (destruct rl; [congruence | discriminate]).
  pose proof (app_removelast_last 0 Hd) as Hds.
  assert (Hsumd : sum (map snd rl)
                  = sum (removelast (map snd rl)) + last (map snd rl) 0).
  { rewrite Hds at 1. rewrite sum_app. cbn. lia. }
  assert (Hpos1 : Forall (fun d => 1 <= d) (removelast (map snd rl))).
  { apply Forall_removelast.
    apply Forall_forall. intros d Hin. apply in_map_iff in Hin.
    destruct Hin as [p [<- Hp]].
    rewrite Forall_forall in Hpos. exact (Hpos p Hp). }
  rewrite HD, removelast_last, last_last.
  split.
  { rewrite Hu. unfold len. rewrite length_map. f_equal.
    rewrite <- (length_map snd rl). rewrite Hds at 1.
    rewrite !length_app. reflexivity. }
  split; [rewrite sum_app; cbn; lia |].
  split; [exact Hpos1 |].
  split; [lia |].
  split.
  - intros [d [Hin Hneg]].
    apply in_app_or in Hin. destruct Hin as [Hin | [<- | []]].
    + rewrite Forall_forall in Hpos1. specialize (Hpos1 d Hin). lia.
    + lia.
  - intros Hlt. eexists. split.
    + apply in_or_app. right. left. reflexivity.
    + lia.
Qed.

Lemma unit_durations_shape_witness :
  len [1; 2; 3] = len [1; 1; -1]
  /\ sum [1; 1; -1] = 1
  /\ Forall (fun d => 1 <= d) (removelast [1; 1; -1])
  /\ last [1; 1; -1] 0 = 1 - sum (removelast [1; 1; -1])
  /\ ((exists d, In d [1; 1; -1] /\ d < 0)
      <-> 1 < sum (removelast [1; 1; -1])).
Proof.
  exact (unit_durations_shape "utt" [1; 2; 3] 1
           (mk_unit_out [1; 2; 3] [1; 1; -1] [mk_mismatch "utt" 1 3])
           eq_refl).
Defined.

(** When the mel has as many frames as the utterance has units, the run
    lengths are persisted as they are, nothing is logged, and units and
    durations together spell the unit sequence again. *)
Theorem unit_durations_exact_length :
  forall (fname : string) (text : list Z),
    (2 <= List.length text)%nat ->
    exists out,
      unit_durations fname text (len text) = Ok out
      /\ uo_log out = []
      /\ Forall (fun d => 1 <= d) (uo_durs out)
      /\ expand (combine (uo_units out) (uo_durs out)) = text.
Proof.
  intros fname text Hlen.
  destruct (proj2 (unit_durations_ok_iff fname text (len text)) Hlen)
    as [out H].
  destruct (unit_durations_runs fname text (len text) out H)
    as (rl & _ & Hne & Hpos & Hsum & Hexp & Hu & HD & Hlog).
  exists out. split; [exact H |].
  rewrite Z.eqb_refl in Hlog. split; [exact Hlog |].
  assert (Hd : map snd rl <> []) by (destruct rl; [congruence | discriminate]).
  replace (last (map snd rl) 0 + (len text - len text))
    with (last (map snd rl) 0) in HD by lia.
  rewrite <- (app_removelast_last 0 Hd) in HD.
  rewrite HD, Hu. split.
  - apply Forall_forall. intros d Hin. apply in_map_iff in Hin.
    destruct Hin as [p [<- Hp]].
    rewrite Forall_forall in Hpos. exact (Hpos p Hp).
  - rewrite combine_fst_snd. exact Hexp.
Qed.

Lemma unit_durations_exact_length_witness :
  exists out,
    unit_durations "utt" [7; 7; 3] (len [7; 7; 3]) = Ok out
    /\ uo_log out = []
    /\ Forall (fun d => 1 <= d) (uo_durs out)
    /\ expand (combine (uo_units out) (uo_durs out)) = [7; 7; 3].
Proof. apply (unit_durations_exact_length "utt" [7; 7; 3]). simpl. lia. Defined.

(** ** AlignmentFileParser: durations of a tier *)

Lemma frame_of_mono (sr hop : Z) (s e : Q) :
  0 <= sr -> 0 < hop -> (s <= e)%Q ->
  frame_of s sr hop <= frame_of e sr hop.
Proof.
  intros Hsr Hhop Hse. unfold frame_of. apply Qceiling_resp_le.
  unfold Qdiv. apply Qmult_le_compat_r.
  - apply Qmult_le_compat_r; [exact Hse |].
    change 0%Q with (inject_Z 0). rewrite <- Zle_Qle. exact Hsr.
  - apply Qinv_le_0_compat.
    change 0%Q with (inject_Z 0). rewrite <- Zle_Qle. lia.
Qed.

(** With a non-negative sampling rate and a positive hop length, a tier
    whose intervals do not end before they start gets no negative duration. *)
Theorem parse_textgrid_durations_nonneg :
  forall (tier : list interval) (sr hop : Z)
         (phones : list string) (durs : list Z) (st en : Q),
    0 <= sr -> 0 < hop ->
    Forall (fun t => (start_time t <= end_time t)%Q) tier ->
    parse_textgrid tier sr hop = Ok (phones, durs, st, en) ->
    Forall (fun d => 0 <= d) durs.
Proof.
  intros tier sr hop phones durs st en Hsr Hhop Hord H.
  destruct tier as [| t l]; [discriminate H |].
  rewrite (parse_textgrid_ok (t :: l) sr hop ltac:(discriminate)
             ltac:(lia)) in H.
  remember (map (interval_frames sr hop) (t :: l)) as d eqn:Ed.
  injection H as _ Hd _ _. subst durs d.
  apply Forall_forall. intros x Hx. apply in_map_iff in Hx.
  destruct Hx as [t' [<- Hin]].
  rewrite Forall_forall in Hord. specialize (Hord t' Hin). cbv beta in Hord.
  unfold interval_frames.
  pose proof (frame_of_mono sr hop _ _ Hsr Hhop Hord). lia.
Qed.

Lemma parse_textgrid_durations_nonneg_witness :
  Forall (fun d => 0 <= d) [44; 43; 43].
Proof.
  apply (parse_textgrid_durations_nonneg
           [mk_interval 0 (1 # 2) "sil"; mk_interval (1 # 2) 1 "a";
            mk_interval 1 (3 # 2) "sil"] 22050 256
           ["sil"; "a"; "sil"] [44; 43; 43] 0 (3 # 2)).
  - lia.
  - lia.
  - repeat constructor; cbn; discriminate.
  - vm_compute. reflexivity.
Defined.

(** [parse_textgrid] fails on an empty tier and on a zero hop length and
    nowhere else; when it returns, it gives the start of the first interval,
    the end of the last one, and one duration per interval: the difference
    of the frame numbers that the interpreter computes for its two
    boundaries, however their rounding falls. *)
Theorem parse_textgrid_durations :
  forall (np_ceil_frame : Q -> Z -> Z -> Z) (tier : list interval)
         (sr hop : Z),
    (tier = [] ->
     parse_textgrid_fl np_ceil_frame tier sr hop = Raise IndexError)
    /\ (tier <> [] -> hop = 0 ->
        parse_textgrid_fl np_ceil_frame tier sr hop
        = Raise ZeroDivisionError)
    /\ (tier <> [] -> hop <> 0 ->
        exists phones durs,
          parse_textgrid_fl np_ceil_frame tier sr hop
          = Ok (phones, durs,
                start_time (hd (mk_interval 0 0 EmptyString) tier),
                end_time (last tier (mk_interval 0 0 EmptyString)))
          /\ List.length phones = List.length tier
          /\ List.length durs = List.length tier
          /\ forall (i : nat) (t : interval),
               nth_error tier i = Some t ->
               nth_error durs i
               = Some (np_ceil_frame (end_time t) sr hop
                       - np_ceil_frame (start_time t) sr hop)).
Proof.
  intros F tier sr hop. split; [intros ->; reflexivity |]. split.
  - intros Ht ->. destruct tier; [congruence | reflexivity].
  - intros Ht Hh. rewrite (parse_textgrid_fl_ok F tier sr hop Ht Hh).
    do 2 eexists. split; [reflexivity |].
    split; [unfold enumerate; now rewrite length_map, enumerate_from_length |].
    split; [apply length_map |].
    intros i t Hi. rewrite nth_error_map, Hi. reflexivity.
Qed.

Lemma parse_textgrid_durations_witness :
  exists phones durs,
    parse_textgrid_fl frame_of
      [mk_interval 0 (1 # 2) "sil"; mk_interval (1 # 2) 1 "a";
       mk_interval 1 (3 # 2) "sil"] 22050 256
    = Ok (phones, durs, 0%Q, (3 # 2)%Q)
    /\ List.length phones = 3%nat
    /\ List.length durs = 3%nat
    /\ forall (i : nat) (t : interval),
         nth_error
           [mk_interval 0 (1 # 2) "sil"; mk_interval (1 # 2) 1 "a";
            mk_interval 1 (3 # 2) "sil"] i = Some t ->
         nth_error durs i
         = Some (frame_of (end_time t) 22050 256
                 - frame_of (start_time t) 22050 256).
Proof.
  apply (proj2 (proj2 (parse_textgrid_durations frame_of
                         [mk_interval 0 (1 # 2) "sil";
                          mk_interval (1 # 2) 1 "a";
                          mk_interval 1 (3 # 2) "sil"] 22050 256)));
    [discriminate | lia].
Defined.

(** On a tier without gaps the durations telescope: each interior boundary
    is rounded once, the same way for the interval that ends there and for
    the one that starts there, so the durations sum to the frame number
    computed for the returned end time minus the one computed for the
    returned start time. *)
Theorem parse_textgrid_contiguous_sum :
  forall (np_ceil_frame : Q -> Z -> Z -> Z) (tier : list interval)
         (sr hop : Z) (phones : list string) (durs : list Z) (st en : Q),
    contiguous tier ->
    parse_textgrid_fl np_ceil_frame tier sr hop = Ok (phones, durs, st, en) ->
    sum durs = np_ceil_frame en sr hop - np_ceil_frame st sr hop.
Proof.
  intros F tier sr hop phones durs st en Hc H.
  destruct tier as [| t l]; [discriminate H |].
  destruct (Z.eq_dec hop 0) as [-> | Hh]; [discriminate H |].
  rewrite (parse_textgrid_fl_ok F (t :: l) sr hop ltac:(discriminate) Hh)
    in H.
  pose proof (parse_textgrid_fl_contiguous_total F (t :: l) sr hop Hc
                ltac:(discriminate)) as Hsum.
  remember (map (interval_frames_fl F sr hop) (t :: l)) as d eqn:Ed.
  remember (start_time (hd (mk_interval 0 0 EmptyString) (t :: l)))
    as s0 eqn:Es.
  remember (end_time (last (t :: l) (mk_interval 0 0 EmptyString)))
    as e0 eqn:Ee.
  injection H as _ Hd Hs He. subst durs st en. exact Hsum.
Qed.

Lemma parse_textgrid_contiguous_sum_witness :
  sum [44; 43; 43]
  = frame_of (3 # 2) 22050 256 - frame_of 0 22050 256.
Proof.
  apply (parse_textgrid_contiguous_sum frame_of
           [mk_interval 0 (1 # 2) "sil"; mk_interval (1 # 2) 1 "a";
            mk_interval 1 (3 # 2) "sil"] 22050 256
           ["sil"; "a"; "sil"] [44; 43; 43] 0 (3 # 2)).
  - simpl. auto.
  - vm_compute. reflexivity.
Defined.

(** The alignment-file strategy accepts a tier without gaps exactly when the
    frame number computed for its last end minus the one computed for its
    first start is the number of frames of the mel; any other tier stops the
    run with the length assertion. *)
Theorem textgrid_durations_accepts :
  forall (np_ceil_frame : Q -> Z -> Z -> Z) (tier : list interval)
         (sr hop mel_len : Z),
    tier <> [] -> hop <> 0 -> contiguous tier ->
    let st := start_time (hd (mk_interval 0 0 EmptyString) tier) in
    let en := end_time (last tier (mk_interval 0 0 EmptyString)) in
    (np_ceil_frame en sr hop - np_ceil_frame st sr hop = mel_len ->
     exists phones durs,
       textgrid_durations_fl np_ceil_frame tier sr hop mel_len
       = Ok (phones, durs, st, en)
       /\ sum durs = mel_len)
    /\ (np_ceil_frame en sr hop - np_ceil_frame st sr hop <> mel_len ->
        textgrid_durations_fl np_ceil_frame tier sr hop mel_len
        = Raise (AssertionError "Length mismatch")).
Proof.
  intros F tier sr hop mel_len Ht Hh Hc st en.
  pose proof (parse_textgrid_fl_ok F tier sr hop Ht Hh) as Hp.
  pose proof (parse_textgrid_fl_contiguous_total F tier sr hop Hc Ht)
    as Hsum.
  fold st en in Hp, Hsum.
  unfold textgrid_durations_fl. rewrite Hp. cbn [bind].
  split; intros H.
  - do 2 eexists. rewrite Hsum, H, Z.eqb_refl. cbn [assert_ bind].
    split; [reflexivity | rewrite Hsum; exact H].
  - rewrite Hsum. destruct (Z.eqb_spec (F en sr hop - F st sr hop) mel_len);
      [contradiction | reflexivity].
Qed.

Lemma textgrid_durations_accepts_witness :
  (exists phones durs,
      textgrid_durations_fl frame_of
        [mk_interval 0 (1 # 2) "sil"; mk_interval (1 # 2) 1 "a";
         mk_interval 1 (3 # 2) "sil"] 22050 256 130
      = Ok (phones, durs, 0%Q, (3 # 2)%Q)
      /\ sum durs = 130)
  /\ textgrid_durations_fl frame_of
       [mk_interval 0 (1 # 2) "sil"; mk_interval (1 # 2) 1 "a";
        mk_interval 1 (3 # 2) "sil"] 22050 256 131
     = Raise (AssertionError "Length mismatch").
Proof.
  split.
  - apply (proj1 (textgrid_durations_accepts frame_of
                    [mk_interval 0 (1 # 2) "sil"; mk_interval (1 # 2) 1 "a";
                     mk_interval 1 (3 # 2) "sil"] 22050 256 130
                    ltac:(discriminate) ltac:(lia) ltac:(simpl; auto))).
    vm_compute. reflexivity.
  - apply (proj2 (textgrid_durations_accepts frame_of
                    [mk_interval 0 (1 # 2) "sil"; mk_interval (1 # 2) 1 "a";
                     mk_interval 1 (3 # 2) "sil"] 22050 256 131
                    ltac:(discriminate) ltac:(lia) ltac:(simpl; auto))).
    vm_compute. discriminate.
Defined.

(** ** Start-up checks *)

(** The start-up checks reject unknown options and per-symbol pitch without
    a duration strategy, and nothing else. *)
Theorem startup_accepts_iff :
  forall (a : args) (unk_args : list string),
    (startup a unk_args = Ok tt
     <-> unk_args = []
         /\ (extract_pitch_char a = true -> any_durations a = true))
    /\ (unk_args <> [] ->
        startup a unk_args = Raise (ValueError "Invalid options"))
    /\ (unk_args = [] -> extract_pitch_char a = true ->
        any_durations a = false ->
        startup a unk_args
        = Raise (AssertionError "Durations required for pitch extraction")).
Proof.
  intros a unk. unfold startup, assert_.
  destruct unk as [| o unk].
  - cbn [len List.length Z.of_nat Z.ltb Z.compare].
    destruct (extract_pitch_char a), (any_durations a);
      (split; [split; [intros H; try discriminate H; auto
                      | intros [_ H]; try reflexivity;
                        specialize (H eq_refl); discriminate]
              | split; [congruence | intros; try reflexivity; discriminate]]).
  - assert (Hlt : (0 <? len (o :: unk)) = true).
    { apply Z.ltb_lt. unfold len. cbn [List.length]. lia. }
    rewrite Hlt.
    split; [split; [discriminate | intros [H _]; discriminate] |].
    split; [reflexivity | discriminate].
Qed.

(** ** PitchNormalizer *)

Lemma set_nth_app_here {A : Type} (pre : list A) (x c : A) (r : list A) :
  set_nth (List.length pre) c (pre ++ x :: r) = pre ++ c :: r.
Proof.
  induction pre as [| y pre IH]; [reflexivity |].
  cbn [List.length app set_nth]. now rewrite IH.
Qed.

(** Writing a constant at the places found by [np.where] is a map. *)
Lemma put_const_np_where {A B : Type} (p : A -> bool) (f : A -> B) (c : B)
    (v : list A) :
  forall pre : list B,
    put_const (np_where_from p (List.length pre) v) c (pre ++ map f v)
    = pre ++ map (fun x => if p x then c else f x) v.
Proof.
  unfold put_const.
  induction v as [| x r IH]; intros pre; [reflexivity |].
  cbn [np_where_from map].
  assert (Hpre : forall y : B,
             pre ++ y :: map f r = (pre ++ [y]) ++ map f r)
    by (intros y; now rewrite <- app_assoc).
  assert (Hlen : forall y : B, S (List.length pre) = List.length (pre ++ [y]))
    by (intros y; rewrite length_app; cbn; lia).
  destruct (p x).
  - cbn [fold_left]. rewrite set_nth_app_here.
    rewrite (Hpre c), (Hlen c), IH, <- app_assoc. reflexivity.
  - rewrite (Hpre (f x)), (Hlen (f x)), IH, <- app_assoc. reflexivity.
Qed.

Lemma np_where_take (p : R -> bool) (v : list R) :
  forall pre : list R,
    map (fun i => nth i (pre ++ v) 0%R) (np_where_from p (List.length pre) v)
    = filter p v.
Proof.
  induction v as [| x r IH]; intros pre; [reflexivity |].
  cbn [np_where_from filter].
  assert (Hpre : pre ++ x :: r = (pre ++ [x]) ++ r)
    by now rewrite <- app_assoc.
  assert (Hlen : S (List.length pre) = List.length (pre ++ [x]))
    by (rewrite length_app; cbn; lia).
  destruct (p x).
  - cbn [map]. rewrite nth_middle. f_equal.
    rewrite Hpre, Hlen. apply IH.
  - rewrite Hpre, Hlen. apply IH.
Qed.

Lemma take_R_np_where (p : R -> bool) (v : list R) :
  take_R v (np_where p v) = filter p v.
Proof. exact (np_where_take p v []). Qed.

Lemma normalize_vector_map (mean std : xreal) (v : list R) :
  normalize_vector mean std v
  = map (fun x => if is_zero x then Some 0%R
                  else xdiv (xsub (Some x) mean) std) v.
Proof.
  unfold normalize_vector, np_where. rewrite map_map.
  exact (put_const_np_where is_zero
           (fun x => xdiv (xsub (Some x) mean) std) (Some 0%R) v []).
Qed.

Lemma pooled_nonzeros_filter (pitch_vecs : list (string * list R)) :
  pooled_nonzeros pitch_vecs
  = List.concat (map (fun kv => filter (fun x => negb (is_zero x)) (snd kv))
                     pitch_vecs).
Proof.
  unfold pooled_nonzeros. f_equal. apply map_ext.
  intros kv. apply take_R_np_where.
Qed.

Lemma is_zero_true (x : R) : is_zero x = true <-> x = 0%R.
Proof.
  unfold is_zero. destruct (Req_dec_T x 0); split; auto; discriminate.
Qed.

Lemma is_zero_false (x : R) : is_zero x = false <-> x <> 0%R.
Proof.
  unfold is_zero. destruct (Req_dec_T x 0); split; auto; try discriminate.
  intros H; contradiction.
Qed.

Section PitchNormalizerFacts.
Local Open Scope R_scope.

Lemma Rsum_app (l m : list R) : Rsum (l ++ m) = Rsum l + Rsum m.
Proof.
  unfold Rsum. induction l as [| x l IH]; cbn [app fold_right]; [lra |].
  rewrite IH. lra.
Qed.

Lemma Rsum_const (c : R) (l : list R) :
  (forall x, In x l -> x = c) -> Rsum l = INR (List.length l) * c.
Proof.
  induction l as [| x l IH]; intros H.
  - cbn. lra.
  - change (Rsum (x :: l)) with (x + Rsum l).
    rewrite IH by (intros y Hy; apply H; right; exact Hy).
    cbn [List.length]. rewrite S_INR.
    rewrite (H x (or_introl eq_refl)). lra.
Qed.

Lemma Rsum_squares_nonneg (m : R) (l : list R) :
  0 <= Rsum (map (fun x => (x - m) * (x - m)) l).
Proof.
  induction l as [| x l IH]; [cbn; lra |].
  change (0 <= (x - m) * (x - m) + Rsum (map (fun x => (x - m) * (x - m)) l)).
  pose proof (Rle_0_sqr (x - m)) as Hs. unfold Rsqr in Hs. lra.
Qed.

Lemma Rsum_squares_zero (m : R) (l : list R) :
  Rsum (map (fun x => (x - m) * (x - m)) l) = 0 <->
  (forall x, In x l -> x = m).
Proof.
  induction l as [| x l IH].
  - cbn. split; [intros _ y [] | reflexivity].
  - change (Rsum (map (fun x => (x - m) * (x - m)) (x :: l)))
      with ((x - m) * (x - m) + Rsum (map (fun x => (x - m) * (x - m)) l)).
    pose proof (Rle_0_sqr (x - m)) as Hs. unfold Rsqr in Hs.
    pose proof (Rsum_squares_nonneg m l) as Hn.
    split.
    + intros H.
      assert (Hx : (x - m) * (x - m) = 0) by lra.
      assert (Hl : Rsum (map (fun x => (x - m) * (x - m)) l) = 0) by lra.
      intros y [<- | Hy].
      * apply Rmult_integral in Hx. lra.
      * apply (proj1 IH Hl y Hy).
    + intros H.
      rewrite (proj2 IH) by (intros y Hy; apply H; right; exact Hy).
      rewrite (H x (or_introl eq_refl)). lra.
Qed.

Lemma INR_length_pos {A : Type} (l : list A) : l <> [] -> 0 < INR (List.length l).
Proof.
  intros H. destruct l as [| x l]; [congruence |].
  apply lt_0_INR. cbn. lia.
Qed.

Lemma np_mean_nonempty (l : list R) :
  l <> [] -> np_mean l = Some (Rsum l / INR (List.length l)).
Proof. destruct l; [congruence | reflexivity]. Qed.

(** Mean and population standard deviation of a non-empty pool. *)
Lemma np_std_spec (l : list R) :
  l <> [] ->
  exists m s,
    np_mean l = Some m
    /\ np_std l = Some s
    /\ 0 <= s
    /\ (s = 0 <-> forall x, In x l -> x = m).
Proof.
  intros Hl. pose proof (INR_length_pos l Hl) as Hn.
  unfold np_std. rewrite (np_mean_nonempty l Hl).
  set (m := Rsum l / INR (List.length l)).
  rewrite np_mean_nonempty by (destruct l; [congruence | discriminate]).
  rewrite length_map.
  set (var := Rsum (map (fun x => (x - m) * (x - m)) l)
              / INR (List.length l)).
  assert (Hvar : 0 <= var).
  { unfold var. apply Rmult_le_pos; [apply Rsum_squares_nonneg |].
    apply Rlt_le. apply Rinv_0_lt_compat. exact Hn. }
  exists m, (sqrt var). repeat split.
  - apply sqrt_pos.
  - intros Hs. apply sqrt_eq_0 in Hs; [| exact Hvar].
    apply Rsum_squares_zero. unfold var in Hs.
    apply Rmult_integral in Hs. destruct Hs as [Hs | Hs]; [exact Hs |].
    pose proof (Rinv_0_lt_compat _ Hn). lra.
  - intros H. apply (proj2 (Rsum_squares_zero m l)) in H.
    unfold var. rewrite H. unfold Rdiv. rewrite Rmult_0_l. apply sqrt_0.
Qed.

Lemma np_mean_const (c : R) (l : list R) :
  l <> [] -> (forall x, In x l -> x = c) -> np_mean l = Some c.
Proof.
  intros Hl H. pose proof (INR_length_pos l Hl) as Hn.
  destruct l as [| a l]; [congruence |].
  unfold np_mean. rewrite (Rsum_const c) by exact H.
  f_equal. field. lra.
Qed.
End PitchNormalizerFacts.

Section PitchNormalizerTheorems.
Local Open Scope R_scope.

Lemma normalize_pitch_vectors_ok (pitch_vecs : list (string * list R)) :
  pitch_vecs <> [] ->
  normalize_pitch_vectors pitch_vecs
  = Ok (map (fun kv =>
               (fst kv,
                map (fun x =>
                       if is_zero x then Some 0
                       else xdiv (xsub (Some x)
                                    (np_mean (pooled_nonzeros pitch_vecs)))
                                 (np_std (pooled_nonzeros pitch_vecs)))
                    (snd kv)))
            pitch_vecs,
        (np_mean (pooled_nonzeros pitch_vecs),
         np_std (pooled_nonzeros pitch_vecs))).
Proof.
  intros H. unfold normalize_pitch_vectors.
  destruct pitch_vecs as [| kv0 rest]; [congruence |].
  cbv zeta. f_equal. f_equal.
  apply map_ext. intros kv. now rewrite normalize_vector_map.
Qed.


(** When the pooled non-zero entries hold two different values, mean and
    standard deviation are numbers and the latter is positive; every
    non-zero entry [x] becomes the number [(x - mean) / std].  An entry is
    0.0 afterwards if it was 0.0 before or if it was equal to the mean: the
    zero entries of a vector can become more. *)
Theorem normalize_pitch_vectors_two_values :
  forall (pitch_vecs : list (string * list R)) (a b : R),
    In a (pooled_nonzeros pitch_vecs) ->
    In b (pooled_nonzeros pitch_vecs) ->
    a <> b ->
    exists out m s,
      normalize_pitch_vectors pitch_vecs = Ok (out, (Some m, Some s))
      /\ 0 < s
      /\ forall (j : nat) (k : string) (v : list R),
           nth_error pitch_vecs j = Some (k, v) ->
           exists v',
             nth_error out j = Some (k, v')
             /\ forall (i : nat) (x : R),
                  nth_error v i = Some x ->
                  nth_error v' i
                  = Some (Some (if is_zero x then 0 else (x - m) / s))
                  /\ (zero_index v' i <-> x = 0 \/ x = m).
Proof.
  intros pitch_vecs a b Ha Hb Hab.
  assert (Hne : pitch_vecs <> []) by (intros ->; destruct Ha).
  assert (Hpool : pooled_nonzeros pitch_vecs <> [])
    by (intros E; rewrite E in Ha; destruct Ha).
  destruct (np_std_spec _ Hpool) as (m & s & Hm & Hs & Hs0 & Hzero).
  assert (Hpos : 0 < s).
  { destruct Hs0 as [Hlt | Heq]; [exact Hlt |].
    exfalso. apply Hab.
    rewrite (proj1 Hzero (eq_sym Heq) a Ha).
    rewrite (proj1 Hzero (eq_sym Heq) b Hb). reflexivity. }
  rewrite (normalize_pitch_vectors_ok pitch_vecs Hne), Hm, Hs.
  do 3 eexists. split; [reflexivity |]. split; [exact Hpos |].
  intros j k v Hj. eexists.
  split; [rewrite nth_error_map, Hj; reflexivity |].
  intros i x Hi. unfold zero_index. cbn [fst snd].
  rewrite nth_error_map, Hi. cbn [option_map xsub xdiv].
  rewrite (proj2 (is_zero_false s)) by lra.
  destruct (is_zero x) eqn:Ex.
  - apply is_zero_true in Ex.
    split; [reflexivity | split; [intros _; left; exact Ex | reflexivity]].
  - apply is_zero_false in Ex. split; [reflexivity |].
    split.
    + intros H. right.
      assert (Hq : (x - m) / s = 0) by congruence.
      unfold Rdiv in Hq. apply Rmult_integral in Hq.
      destruct Hq as [Hq | Hq]; [lra |].
      pose proof (Rinv_0_lt_compat s Hpos). lra.
    + intros [H | H]; [contradiction |].
      subst x. do 2 f_equal. unfold Rdiv, Rminus.
      rewrite Rplus_opp_r. apply Rmult_0_l.
Qed.
End PitchNormalizerTheorems.

Section PitchNormalizerDegenerate.
Local Open Scope R_scope.

Lemma In_pooled_nonzeros (pitch_vecs : list (string * list R))
    (kv : string * list R) (x : R) :
  In kv pitch_vecs -> In x (snd kv) -> x <> 0 ->
  In x (pooled_nonzeros pitch_vecs).
Proof.
  intros Hkv Hx Hnz. rewrite pooled_nonzeros_filter.
  apply in_concat. exists (filter (fun x => negb (is_zero x)) (snd kv)).
  split.
  - apply in_map_iff. exists kv. auto.
  - apply filter_In. split; [exact Hx |].
    now rewrite (proj2 (is_zero_false x) Hnz).
Qed.

Lemma normalize_pitch_vectors_two_values_witness :
  exists out m s,
    normalize_pitch_vectors [("a"%string, [1; 0; 3])]
    = Ok (out, (Some m, Some s))
    /\ 0 < s.
Proof.
  assert (H1 : In 1 (pooled_nonzeros [("a"%string, [1; 0; 3])])).
  { apply (In_pooled_nonzeros _ ("a"%string, [1; 0; 3]));
      [left; reflexivity | left; reflexivity | lra]. }
  assert (H3 : In 3 (pooled_nonzeros [("a"%string, [1; 0; 3])])).
  { apply (In_pooled_nonzeros _ ("a"%string, [1; 0; 3]));
      [left; reflexivity | right; right; left; reflexivity | lra]. }
  destruct (normalize_pitch_vectors_two_values
              [("a"%string, [1; 0; 3])] 1 3 H1 H3 ltac:(lra))
    as (out & m & s & H & Hs & _).
  exists out, m, s. split; [exact H | exact Hs].
Defined.

(** A corpus without any non-zero entry is not refused: the statistics of
    its empty pool are undefined, and every vector comes back as it was,
    all zeros, the zero entries being restored after the arithmetic. *)
Theorem normalize_pitch_vectors_all_unvoiced :
  forall pitch_vecs : list (string * list R),
    pitch_vecs <> [] ->
    (forall kv x, In kv pitch_vecs -> In x (snd kv) -> x = 0) ->
    pooled_nonzeros pitch_vecs = []
    /\ normalize_pitch_vectors pitch_vecs
       = Ok (map (fun kv => (fst kv, map (fun _ => Some 0) (snd kv)))
                 pitch_vecs,
             (None, None)).
Proof.
  intros pitch_vecs Hne Hzero.
  assert (Hpool : pooled_nonzeros pitch_vecs = []).
  { rewrite pooled_nonzeros_filter.
    apply concat_nil_Forall. apply Forall_forall.
    intros l Hl. apply in_map_iff in Hl. destruct Hl as [kv [<- Hkv]].
    destruct (filter (fun x => negb (is_zero x)) (snd kv)) as [| y r] eqn:E;
      [reflexivity |].
    assert (Hy : In y (filter (fun x => negb (is_zero x)) (snd kv)))
      by (rewrite E; left; reflexivity).
    apply filter_In in Hy. destruct Hy as [Hin Hnz].
    rewrite (Hzero kv y Hkv Hin) in Hnz.
    rewrite (proj2 (is_zero_true 0) eq_refl) in Hnz. discriminate Hnz. }
  split; [exact Hpool |].
  rewrite (normalize_pitch_vectors_ok pitch_vecs Hne), Hpool.
  cbn [np_mean np_std]. f_equal. f_equal.
  apply map_ext_in. intros kv Hkv. f_equal.
  apply map_ext_in. intros x Hx.
  rewrite (Hzero kv x Hkv Hx).
  now rewrite (proj2 (is_zero_true 0) eq_refl).
Qed.

Lemma normalize_pitch_vectors_all_unvoiced_witness :
  pooled_nonzeros [("a"%string, [0; 0]); ("b"%string, [0])] = []
  /\ normalize_pitch_vectors [("a"%string, [0; 0]); ("b"%string, [0])]
     = Ok (map (fun kv => (fst kv, map (fun _ => Some 0) (snd kv)))
               [("a"%string, [0; 0]); ("b"%string, [0])],
           (None, None)).
Proof.
  apply (normalize_pitch_vectors_all_unvoiced
           [("a"%string, [0; 0]); ("b"%string, [0])]).
  - discriminate.
  - intros kv x [<- | [<- | []]] Hx; cbn in Hx;
      repeat (destruct Hx as [<- | Hx]; [reflexivity |]); destruct Hx.
Defined.
End PitchNormalizerDegenerate.

(** ** SilenceTrimmer *)

Lemma np_where_from_none {A : Type} (p : A -> bool) (l : list A) :
  forall i, (forall x, In x l -> p x = false) -> np_where_from p i l = [].
Proof.
  induction l as [| x l IH]; intros i H; [reflexivity |].
  cbn [np_where_from]. rewrite (H x (or_introl eq_refl)).
  apply IH. intros y Hy. apply H. right. exact Hy.
Qed.

Lemma np_where_from_app {A : Type} (p : A -> bool) (l m : list A) :
  forall i,
    np_where_from p i (l ++ m)
    = np_where_from p i l ++ np_where_from p (i + List.length l)%nat m.
Proof.
  induction l as [| x l IH]; intros i.
  - cbn. now rewrite Nat.add_0_r.
  - cbn [app np_where_from List.length]. rewrite IH.
    replace (S i + List.length l)%nat with (i + S (List.length l))%nat by lia.
    destruct (p x); reflexivity.
Qed.

Lemma sil_eqb_false (l : list string) :
  ~ In "sil" l -> forall x, In x l -> String.eqb "sil" x = false.
Proof.
  intros H x Hx. apply String.eqb_neq. intros <-. exact (H Hx).
Qed.

(** The positions of ["sil"] in a text with one silence. *)
Lemma np_where_one_sil (pre post : list string) :
  ~ In "sil" pre -> ~ In "sil" post ->
  np_where (String.eqb "sil") (pre ++ "sil" :: post) = [List.length pre].
Proof.
  intros Hpre Hpost. unfold np_where.
  rewrite np_where_from_app.
  rewrite (np_where_from_none _ pre) by (apply sil_eqb_false; exact Hpre).
  cbn [app np_where_from String.eqb Ascii.eqb Bool.eqb].
  rewrite (np_where_from_none _ post) by (apply sil_eqb_false; exact Hpost).
  reflexivity.
Qed.

(** A text without any silence has nothing to trim, and the branch on the
    first silence fails. *)
Lemma trim_utterance_no_sil {Frame Pitch : Type} (ts : Q) (keep n_texts : Z)
    (vars : trim_vars) (u : @utterance Frame Pitch) :
  ~ In "sil" (u_text u) ->
  trim_utterance ts keep n_texts vars u = Raise IndexError.
Proof.
  intros H. unfold trim_utterance, np_where.
  rewrite (np_where_from_none _ (u_text u))
    by (apply sil_eqb_false; exact H).
  reflexivity.
Qed.

(** One silence whose duration is neither 0 nor one less than the number of
    utterances of the batch: no branch binds the bounds of the cut. *)
Lemma trim_utterance_one_sil_unbound {Frame Pitch : Type} (ts : Q)
    (keep n_texts : Z) (u : @utterance Frame Pitch)
    (pre post : list string) (d : Z) :
  u_text u = pre ++ "sil" :: post ->
  ~ In "sil" pre -> ~ In "sil" post ->
  nth_error (u_durs u) (List.length pre) = Some d ->
  d <> 0 -> d <> n_texts - 1 ->
  trim_utterance ts keep n_texts unbound u
  = Raise (UnboundLocalError "trim_end").
Proof.
  intros Ht Hpre Hpost Hd H0 Hn. unfold trim_utterance.
  rewrite Ht, (np_where_one_sil pre post Hpre Hpost).
  unfold take_idx. cbn [mapM]. rewrite Hd. cbn [bind map].
  unfold select_trim.
  destruct (Z.eqb_spec d 0); [contradiction |].
  destruct (Z.eqb_spec d (n_texts - 1)); [contradiction |].
  reflexivity.
Qed.

Lemma keep_sil_frames_returns (a : args) (ts : Q) :
  hop_length a <> 0 -> exists keep, keep_sil_frames a ts = Ok keep.
Proof.
  intros H. unfold keep_sil_frames.
  destruct (Qltb 0 ts); [| eexists; reflexivity].
  destruct (Z.eqb_spec (hop_length a) 0); [contradiction |].
  eexists. reflexivity.
Qed.

(** An utterance without any ["sil"] symbol stops the trimming step: the
    branch that looks at the first silence indexes an empty array. *)
Theorem trim_batch_no_silence :
  forall (Frame Pitch : Type) (a : args) (ts : Q) (vars : trim_vars)
         (u : @utterance Frame Pitch) (rest : list (@utterance Frame Pitch)),
    trim_silence a = Some ts ->
    extract_durs_from_textgrids a = true ->
    hop_length a <> 0 ->
    ~ In "sil" (u_text u) ->
    trim_batch a vars (u :: rest) = Raise IndexError.
Proof.
  intros Frame Pitch a ts vars u rest Hts Htg Hhop Hsil.
  unfold trim_batch. rewrite Hts, Htg. cbn [assert_ bind].
  destruct (keep_sil_frames_returns a ts Hhop) as [keep ->].
  cbn [bind trim_loop].
  rewrite (trim_utterance_no_sil ts keep _ vars u Hsil). reflexivity.
Qed.

Lemma trim_batch_no_silence_witness :
  trim_batch trim_args unbound
    [mk_utterance "utt" ["a"; "sp"; "b"] [5; 3; 7]
       (map Z.of_nat (seq 0 15)) 15 (Some [1; 0; 2])]
  = Raise IndexError.
Proof.
  apply (trim_batch_no_silence Z Z trim_args 0%Q).
  - reflexivity.
  - reflexivity.
  - cbn. lia.
  - cbn. intros [H | [H | [H | []]]]; discriminate H.
Defined.

(** The first utterance of a run that has one silence only, of a duration
    that is neither 0 nor the number of the other utterances of the batch,
    stops the trimming step: neither branch for a single silence is taken
    and the end of the cut is read unbound. *)
Theorem trim_batch_one_silence_unbound :
  forall (Frame Pitch : Type) (a : args) (ts : Q)
         (u : @utterance Frame Pitch) (rest : list (@utterance Frame Pitch))
         (pre post : list string) (d : Z),
    trim_silence a = Some ts ->
    extract_durs_from_textgrids a = true ->
    hop_length a <> 0 ->
    u_text u = pre ++ "sil" :: post ->
    ~ In "sil" pre -> ~ In "sil" post ->
    nth_error (u_durs u) (List.length pre) = Some d ->
    d <> 0 -> d <> len rest ->
    trim_batch a unbound (u :: rest) = Raise (UnboundLocalError "trim_end").
Proof.
  intros Frame Pitch a ts u rest pre post d Hts Htg Hhop Ht Hpre Hpost Hd
         H0 Hn.
  unfold trim_batch. rewrite Hts, Htg. cbn [assert_ bind].
  destruct (keep_sil_frames_returns a ts Hhop) as [keep ->].
  cbn [bind trim_loop].
  rewrite (trim_utterance_one_sil_unbound ts keep _ u pre post d
             Ht Hpre Hpost Hd H0).
  - reflexivity.
  - unfold len in *. cbn [List.length]. lia.
Qed.

Lemma trim_batch_one_silence_unbound_witness :
  trim_batch trim_args unbound [leading_sil_utt]
  = Raise (UnboundLocalError "trim_end").
Proof.
  apply (trim_batch_one_silence_unbound Z Z trim_args 0%Q leading_sil_utt []
           [] ["a"; "b"] 10).
  - reflexivity.
  - reflexivity.
  - cbn. lia.
  - reflexivity.
  - intros [].
  - cbn. intros [H | [H | []]]; discriminate H.
  - reflexivity.
  - lia.
  - cbn. lia.
Defined.

Lemma nth_error_app_last {A : Type} (l : list A) (x : A) (n : nat) :
  List.length l = n -> nth_error (l ++ [x]) n = Some x.
Proof.
  intros <-. rewrite nth_error_app2 by lia.
  now rewrite Nat.sub_diag.
Qed.

Lemma set_nth_app_last {A : Type} (l : list A) (x c : A) (n : nat) :
  List.length l = n -> set_nth n c (l ++ [x]) = l ++ [c].
Proof. intros <-. apply set_nth_app_here. Qed.

Lemma np_where_two_sil (mid : list string) :
  ~ In "sil" mid ->
  np_where (String.eqb "sil") ("sil" :: mid ++ ["sil"])
  = [0%nat; S (List.length mid)].
Proof.
  intros H. unfold np_where.
  change (np_where_from (String.eqb "sil") 0 ("sil" :: mid ++ ["sil"]))
    with (0%nat :: np_where_from (String.eqb "sil") 1 (mid ++ ["sil"])).
  rewrite np_where_from_app.
  rewrite (np_where_from_none _ mid) by (apply sil_eqb_false; exact H).
  reflexivity.
Qed.

Section MaskSelect.
Context {A : Type}.

Lemma keep_mask_no_sil (mid : list string) :
  ~ In "sil" mid ->
  forall l : list A,
    List.length l = List.length mid ->
    map snd (filter fst
               (combine (map (fun s => negb (String.eqb s "sil")) mid) l))
    = l.
Proof.
  induction mid as [| s mid IH]; intros H l Hl.
  - destruct l; [reflexivity | discriminate].
  - destruct l as [| x l]; [discriminate |].
    cbn [map combine]. 
    assert (Hs : String.eqb s "sil" = false).
    { apply String.eqb_neq. intros ->. apply H. left. reflexivity. }
    rewrite Hs. cbn [negb filter fst map snd]. f_equal.
    apply IH; [| cbn in Hl; lia].
    intros Hin. apply H. right. exact Hin.
Qed.

Lemma keep_mask_no_sil_end (mid : list string) (y : A) :
  ~ In "sil" mid ->
  forall l : list A,
    List.length l = List.length mid ->
    map snd (filter fst
               (combine (map (fun s => negb (String.eqb s "sil"))
                             (mid ++ ["sil"]))
                        (l ++ [y])))
    = l.
Proof.
  induction mid as [| s mid IH]; intros H l Hl.
  - destruct l; [reflexivity | discriminate].
  - destruct l as [| x l]; [discriminate |].
    cbn [map combine app].
    assert (Hs : String.eqb s "sil" = false).
    { apply String.eqb_neq. intros ->. apply H. left. reflexivity. }
    rewrite Hs. cbn [negb filter fst map snd]. f_equal.
    apply IH; [| cbn in Hl; lia].
    intros Hin. apply H. right. exact Hin.
Qed.

Lemma all_true_mask {B : Type} (t : list B) :
  forall l : list A,
    List.length l = List.length t ->
    map snd (filter fst (combine (map (fun _ => true) t) l)) = l.
Proof.
  induction t as [| s t IH]; intros l Hl.
  - destruct l; [reflexivity | discriminate].
  - destruct l as [| x l]; [discriminate |].
    cbn [map combine filter fst snd]. f_equal.
    apply IH. cbn in Hl. lia.
Qed.

(** Masking out the silence at both ends, and masking out nothing. *)
Lemma mask_select_keep_ends (mid : list string) (x y : A) (l : list A) :
  ~ In "sil" mid -> List.length l = List.length mid ->
  mask_select (map (fun s => negb (String.eqb s "sil"))
                   ("sil" :: mid ++ ["sil"]))
              (x :: l ++ [y])
  = Ok l.
Proof.
  intros H Hl. unfold mask_select.
  assert (E : len (map (fun s => negb (String.eqb s "sil"))
                       ("sil" :: mid ++ ["sil"]))
              = len (x :: l ++ [y])).
  { unfold len. rewrite length_map. cbn [List.length].
    rewrite !length_app, Hl. reflexivity. }
  rewrite E, Z.eqb_refl. f_equal.
  change (map (fun s => negb (String.eqb s "sil")) ("sil" :: mid ++ ["sil"]))
    with (false :: map (fun s => negb (String.eqb s "sil")) (mid ++ ["sil"])).
  cbn [combine filter fst].
  apply keep_mask_no_sil_end; assumption.
Qed.

Lemma mask_select_keep_lead (rest : list string) (x : A) (l : list A) :
  ~ In "sil" rest -> List.length l = List.length rest ->
  mask_select (map (fun s => negb (String.eqb s "sil")) ("sil" :: rest))
              (x :: l)
  = Ok l.
Proof.
  intros H Hl. unfold mask_select.
  assert (E : len (map (fun s => negb (String.eqb s "sil")) ("sil" :: rest))
              = len (x :: l)).
  { unfold len. rewrite length_map. cbn [List.length]. now rewrite Hl. }
  rewrite E, Z.eqb_refl. f_equal.
  change (map (fun s => negb (String.eqb s "sil")) ("sil" :: rest))
    with (false :: map (fun s => negb (String.eqb s "sil")) rest).
  cbn [combine filter fst].
  apply keep_mask_no_sil; assumption.
Qed.

Lemma mask_select_all {B : Type} (t : list B) (l : list A) :
  List.length l = List.length t ->
  mask_select (map (fun _ => true) t) l = Ok l.
Proof.
  intros Hl. unfold mask_select.
  assert (E : len (map (fun _ : B => true) t) = len l).
  { unfold len. now rewrite length_map, Hl. }
  rewrite E, Z.eqb_refl. f_equal. apply all_true_mask. exact Hl.
Qed.

(** [l[a:-c]], or [l[a:]] when [c] is 0, as the trimming step cuts the
    mel. *)
Lemma py_slice_cut (l : list A) (a c : Z) :
  0 <= a -> 0 <= c -> a + c <= len l ->
  py_slice (Some a) (if c =? 0 then None else Some (- c)) l
  = firstn (Z.to_nat (len l - a - c)) (skipn (Z.to_nat a) l).
Proof.
  intros Ha Hc Hac. unfold py_slice, norm_index.
  destruct (Z.ltb_spec a 0); [lia |].
  rewrite Z.min_l by lia.
  destruct (Z.eqb_spec c 0) as [-> | Hne].
  - f_equal. lia.
  - destruct (Z.ltb_spec (- c) 0); [| lia].
    rewrite Z.max_r by lia. f_equal. lia.
Qed.

Lemma firstn_skipn_firstn (l : list A) (k a m : nat) :
  (a + k <= m)%nat ->
  firstn k (skipn a (firstn m l)) = firstn k (skipn a l).
Proof.
  intros H. rewrite !firstn_skipn_comm, firstn_firstn.
  now rewrite Nat.min_l by lia.
Qed.
End MaskSelect.

Lemma trim_utterance_both_ends {Frame Pitch : Type} (ts : Q)
    (keep n_texts : Z) (vars : trim_vars) (fname : string)
    (mid : list string) (d0 dl : Z) (dm : list Z) (mel : list Frame) (m : Z)
    (p0 pl : Pitch) (pm : list Pitch) :
  ~ In "sil" mid ->
  List.length dm = List.length mid -> List.length pm = List.length mid ->
  0 <= keep -> 0 <= d0 -> 0 <= dl -> 0 <= sum dm ->
  d0 + sum dm + dl = m -> m <= len mel ->
  (Qeq_bool ts 0 = true -> keep = 0) ->
  let t0 := if keep <? d0 then d0 - keep else 0 in
  let tl := if keep <? dl then dl - keep else 0 in
  trim_utterance ts keep n_texts vars
    (mk_utterance fname ("sil" :: mid ++ ["sil"]) (d0 :: dm ++ [dl]) mel m
       (Some (p0 :: pm ++ [pl])))
  = Ok (mk_trimmed
          (if Qeq_bool ts 0 then mid else "sil" :: mid ++ ["sil"])
          (firstn (Z.to_nat (m - t0 - tl)) (skipn (Z.to_nat t0) mel))
          (if Qeq_bool ts 0 then dm else (d0 - t0) :: dm ++ [dl - tl])
          (if Qeq_bool ts 0 then pm else p0 :: pm ++ [pl]),
        mk_trim_vars (Some (PyInt t0))
          (Some (if tl =? 0 then PyNone else PyInt (- tl)))).
Proof.
  intros Hsil Hdm Hpm Hk Hd0 Hdl Hsum Hm Hmel Hts t0 tl.
  assert (Ht0 : 0 <= t0 <= d0) by (subst t0; destruct (Z.ltb_spec keep d0); lia).
  assert (Htl : 0 <= tl <= dl) by (subst tl; destruct (Z.ltb_spec keep dl); lia).
  unfold trim_utterance.
  cbn [u_text u_durs u_mel u_mel_len u_pitch u_fname].
  rewrite (np_where_two_sil mid Hsil).
  unfold take_idx. cbn [mapM nth_error].
  rewrite (nth_error_app_last dm dl _ Hdm). cbn [bind map].
  fold t0 tl. cbn [select_trim bind read trim_end trim_start].
  assert (Hte : match PyInt (- tl) with
                | PyInt 0 => PyNone
                | _ => PyInt (- tl)
                end = if tl =? 0 then PyNone else PyInt (- tl)).
  { generalize tl. intros [| q | q]; reflexivity. }
  rewrite Hte. clear Hte.
  assert (Hmelcut :
            py_slice (bound_of (PyInt t0))
              (bound_of (if tl =? 0 then PyNone else PyInt (- tl)))
              (py_slice None (Some m) mel)
            = firstn (Z.to_nat (m - t0 - tl)) (skipn (Z.to_nat t0) mel)).
  { rewrite py_slice_prefix by lia.
    replace (bound_of (if tl =? 0 then PyNone else PyInt (- tl)))
      with (if tl =? 0 then None else Some (- tl))
      by (destruct (tl =? 0); reflexivity).
    cbn [bound_of].
    assert (Hlen : len (firstn (Z.to_nat m) mel) = m).
    { unfold len in *. rewrite length_firstn. lia. }
    rewrite py_slice_cut by lia. rewrite Hlen.
    apply firstn_skipn_firstn. lia. }
  assert (Hlenmel :
            len (firstn (Z.to_nat (m - t0 - tl)) (skipn (Z.to_nat t0) mel))
            = m - t0 - tl).
  { unfold len in *. rewrite length_firstn, length_skipn. lia. }
  assert (Hput : put (d0 :: dm ++ [dl]) [0%nat; S (List.length mid)]
                     (map2 Z.sub [d0; dl] [t0; tl])
                 = (d0 - t0) :: dm ++ [dl - tl]).
  { cbn [map2 put set_nth]. now rewrite (set_nth_app_last dm dl _ _ Hdm). }
  rewrite Hput, Hmelcut.
  change (negb (String.eqb "sil" "sil")
          :: map (fun s => negb (String.eqb s "sil")) (mid ++ ["sil"]))
    with (map (fun s => negb (String.eqb s "sil")) ("sil" :: mid ++ ["sil"])).
  change (true :: map (fun _ : string => true) (mid ++ ["sil"]))
    with (map (fun _ : string => true) ("sil" :: mid ++ ["sil"])).
  destruct (Qeq_bool ts 0) eqn:Ets.
  - specialize (Hts eq_refl). subst keep.
    assert (t0 = d0) by (subst t0; destruct (Z.ltb_spec 0 d0); lia).
    assert (tl = dl) by (subst tl; destruct (Z.ltb_spec 0 dl); lia).
    rewrite (mask_select_keep_ends mid "sil" "sil" mid Hsil eq_refl).
    cbn [bind].
    rewrite (mask_select_keep_ends mid (d0 - t0) (dl - tl) dm Hsil Hdm).
    cbn [bind]. rewrite Hlenmel.
    replace (m - t0 - tl) with (sum dm) by lia.
    rewrite Z.eqb_refl. cbn [assert_ bind].
    rewrite (mask_select_keep_ends mid p0 pl pm Hsil Hpm).
    cbn [bind].
    replace (len pm =? len dm) with true
      by (symmetry; apply Z.eqb_eq; unfold len; now rewrite Hpm, Hdm).
    reflexivity.
  - rewrite (mask_select_all ("sil" :: mid ++ ["sil"])
               ("sil" :: mid ++ ["sil"]) eq_refl).
    cbn [bind].
    rewrite (mask_select_all ("sil" :: mid ++ ["sil"])
               ((d0 - t0) :: dm ++ [dl - tl]))
      by (cbn [List.length]; rewrite !length_app, Hdm; reflexivity).
    cbn [bind]. rewrite Hlenmel.
    replace (sum ((d0 - t0) :: dm ++ [dl - tl])) with (m - t0 - tl)
      by (change (sum ((d0 - t0) :: dm ++ [dl - tl]))
            with (d0 - t0 + sum (dm ++ [dl - tl]));
          rewrite sum_app; cbn; lia).
    rewrite Z.eqb_refl. cbn [assert_ bind].
    rewrite (mask_select_all ("sil" :: mid ++ ["sil"]) (p0 :: pm ++ [pl]))
      by (cbn [List.length]; rewrite !length_app, Hpm; reflexivity).
    cbn [bind].
    replace (len (p0 :: pm ++ [pl]) =? len ((d0 - t0) :: dm ++ [dl - tl]))
      with true
      by (symmetry; apply Z.eqb_eq; unfold len; cbn [List.length];
          now rewrite !length_app, Hpm, Hdm).
    reflexivity.
Qed.

(** With [--trim-silence 0], an utterance that has a silence at each end
    and nowhere else loses both symbols with their durations and pitch
    values, and its mel loses the frames of the leading silence at the start
    and those of the trailing silence at the end; durations and mel agree
    again.  Neither the batch size nor earlier utterances matter. *)
Theorem trim_both_ends_completely :
  forall (Frame Pitch : Type) (n_texts : Z) (vars : trim_vars)
         (fname : string) (mid : list string) (d0 dl : Z) (dm : list Z)
         (mel : list Frame) (p0 pl : Pitch) (pm : list Pitch),
    ~ In "sil" mid ->
    List.length dm = List.length mid -> List.length pm = List.length mid ->
    0 <= d0 -> 0 <= dl -> 0 <= sum dm ->
    d0 + sum dm + dl <= len mel ->
    exists vars',
      trim_utterance 0 0 n_texts vars
        (mk_utterance fname ("sil" :: mid ++ ["sil"]) (d0 :: dm ++ [dl]) mel
           (d0 + sum dm + dl) (Some (p0 :: pm ++ [pl])))
      = Ok (mk_trimmed mid
              (firstn (Z.to_nat (sum dm)) (skipn (Z.to_nat d0) mel)) dm pm,
            vars')
      /\ len (firstn (Z.to_nat (sum dm)) (skipn (Z.to_nat d0) mel)) = sum dm.
Proof.
  intros Frame Pitch n_texts vars fname mid d0 dl dm mel p0 pl pm
         Hsil Hdm Hpm Hd0 Hdl Hsum Hmel.
  pose proof (trim_utterance_both_ends 0 0 n_texts vars fname mid d0 dl dm
                mel (d0 + sum dm + dl) p0 pl pm Hsil Hdm Hpm
                ltac:(lia) Hd0 Hdl Hsum eq_refl Hmel
                (fun _ => eq_refl)) as H.
  cbv zeta in H.
  change (Qeq_bool 0 0) with true in H. cbv iota in H.
  replace (if 0 <? d0 then d0 - 0 else 0) with d0 in H
    by (destruct (Z.ltb_spec 0 d0); lia).
  replace (if 0 <? dl then dl - 0 else 0) with dl in H
    by (destruct (Z.ltb_spec 0 dl); lia).
  replace (d0 + sum dm + dl - d0 - dl) with (sum dm) in H by lia.
  eexists. split; [exact H |].
  unfold len in *. rewrite length_firstn, length_skipn. lia.
Qed.

Lemma trim_both_ends_completely_witness :
  exists vars',
    trim_utterance 0 0 1 unbound
      (mk_utterance "utt" ("sil" :: ["a"; "b"] ++ ["sil"])
         (10 :: [5; 7] ++ [4]) (map Z.of_nat (seq 0 26))
         (10 + sum [5; 7] + 4) (Some (0 :: [1; 2] ++ [0])))
    = Ok (mk_trimmed ["a"; "b"]
            (firstn (Z.to_nat (sum [5; 7]))
               (skipn (Z.to_nat 10) (map Z.of_nat (seq 0 26))))
            [5; 7] [1; 2],
          vars')
    /\ len (firstn (Z.to_nat (sum [5; 7]))
              (skipn (Z.to_nat 10) (map Z.of_nat (seq 0 26))))
       = sum [5; 7].
Proof.
  apply (trim_both_ends_completely Z Z 1 unbound "utt" ["a"; "b"] 10 4
           [5; 7] (map Z.of_nat (seq 0 26)) 0 0 [1; 2]).
  - cbn. intros [H | [H | []]]; discriminate H.
  - reflexivity.
  - reflexivity.
  - lia.
  - lia.
  - cbn. lia.
  - cbn. lia.
Defined.

(** With a positive [--trim-silence], such an utterance keeps all its
    symbols and pitch values; each of the two silences keeps at most [keep]
    frames, and the mel loses what the silences lose, at the matching
    end. *)
Theorem trim_both_ends_keeping :
  forall (Frame Pitch : Type) (ts : Q) (keep n_texts : Z) (vars : trim_vars)
         (fname : string) (mid : list string) (d0 dl : Z) (dm : list Z)
         (mel : list Frame) (p0 pl : Pitch) (pm : list Pitch),
    Qeq_bool ts 0 = false -> 0 <= keep ->
    ~ In "sil" mid ->
    List.length dm = List.length mid -> List.length pm = List.length mid ->
    0 <= d0 -> 0 <= dl -> 0 <= sum dm ->
    d0 + sum dm + dl <= len mel ->
    exists vars',
      trim_utterance ts keep n_texts vars
        (mk_utterance fname ("sil" :: mid ++ ["sil"]) (d0 :: dm ++ [dl]) mel
           (d0 + sum dm + dl) (Some (p0 :: pm ++ [pl])))
      = Ok (mk_trimmed ("sil" :: mid ++ ["sil"])
              (firstn (Z.to_nat (Z.min d0 keep + sum dm + Z.min dl keep))
                 (skipn (Z.to_nat (d0 - Z.min d0 keep)) mel))
              (Z.min d0 keep :: dm ++ [Z.min dl keep])
              (p0 :: pm ++ [pl]),
            vars').
Proof.
  intros Frame Pitch ts keep n_texts vars fname mid d0 dl dm mel p0 pl pm
         Hts Hk Hsil Hdm Hpm Hd0 Hdl Hsum Hmel.
  pose proof (trim_utterance_both_ends ts keep n_texts vars fname mid d0 dl
                dm mel (d0 + sum dm + dl) p0 pl pm Hsil Hdm Hpm
                Hk Hd0 Hdl Hsum eq_refl Hmel) as H.
  rewrite Hts in H. specialize (H ltac:(discriminate)). cbv zeta in H.
  assert (E0 : (if keep <? d0 then d0 - keep else 0) = d0 - Z.min d0 keep)
    by (destruct (Z.ltb_spec keep d0); lia).
  assert (El : (if keep <? dl then dl - keep else 0) = dl - Z.min dl keep)
    by (destruct (Z.ltb_spec keep dl); lia).
  rewrite E0, El in H.
  replace (d0 - (d0 - Z.min d0 keep)) with (Z.min d0 keep) in H by lia.
  replace (dl - (dl - Z.min dl keep)) with (Z.min dl keep) in H by lia.
  replace (d0 + sum dm + dl - (d0 - Z.min d0 keep) - (dl - Z.min dl keep))
    with (Z.min d0 keep + sum dm + Z.min dl keep) in H by lia.
  eexists. exact H.
Qed.

Lemma trim_both_ends_keeping_witness :
  exists vars',
    trim_utterance (1 # 20) 4 1 unbound
      (mk_utterance "utt" ("sil" :: ["a"; "b"] ++ ["sil"])
         (10 :: [5; 7] ++ [3]) (map Z.of_nat (seq 0 25))
         (10 + sum [5; 7] + 3) (Some (0 :: [1; 2] ++ [0])))
    = Ok (mk_trimmed ("sil" :: ["a"; "b"] ++ ["sil"])
            (firstn (Z.to_nat (Z.min 10 4 + sum [5; 7] + Z.min 3 4))
               (skipn (Z.to_nat (10 - Z.min 10 4))
                      (map Z.of_nat (seq 0 25))))
            (Z.min 10 4 :: [5; 7] ++ [Z.min 3 4])
            (0 :: [1; 2] ++ [0]),
          vars').
Proof.
  apply (trim_both_ends_keeping Z Z (1 # 20) 4 1 unbound "utt" ["a"; "b"]
           10 3 [5; 7] (map Z.of_nat (seq 0 25)) 0 0 [1; 2]).
  - reflexivity.
  - lia.
  - cbn. intros [H | [H | []]]; discriminate H.
  - reflexivity.
  - reflexivity.
  - lia.
  - lia.
  - cbn. lia.
  - cbn. lia.
Defined.

Lemma py_slice_drop_last {A : Type} (l : list A) (d : Z) :
  0 < d <= len l ->
  py_slice None (Some (- d)) l = firstn (Z.to_nat (len l - d)) l.
Proof.
  intros H. unfold py_slice, norm_index.
  destruct (Z.ltb_spec (- d) 0); [| lia].
  rewrite Z.max_r by lia. cbn [Z.to_nat skipn]. f_equal. lia.
Qed.

(** A single leading silence is recognised as a trailing one when its
    duration happens to be one less than the number of utterances of the
    batch: with [--trim-silence 0] the symbol, its duration and its pitch
    value are dropped, but the mel is cut at its end: it keeps the frames
    of the silence and loses as many frames of speech, and the assertion on
    the lengths does not notice. *)
Theorem trim_leading_silence_cuts_the_end :
  forall (Frame Pitch : Type) (vars : trim_vars) (fname : string)
         (rest : list string) (d : Z) (dr : list Z) (mel : list Frame)
         (p0 : Pitch) (pr : list Pitch),
    ~ In "sil" rest ->
    List.length dr = List.length rest -> List.length pr = List.length rest ->
    0 < d -> 0 <= sum dr -> d + sum dr <= len mel ->
    trim_utterance 0 0 (d + 1) vars
      (mk_utterance fname ("sil" :: rest) (d :: dr) mel (d + sum dr)
         (Some (p0 :: pr)))
    = Ok (mk_trimmed rest (firstn (Z.to_nat (sum dr)) mel) dr pr,
          mk_trim_vars (Some PyNone) (Some (PyInt (- d)))).
Proof.
  intros Frame Pitch vars fname rest d dr mel p0 pr
         Hsil Hdr Hpr Hd Hsum Hmel.
  unfold trim_utterance.
  cbn [u_text u_durs u_mel u_mel_len u_pitch u_fname].
  assert (Hnp : np_where (String.eqb "sil") ("sil" :: rest) = [0%nat])
    by exact (np_where_one_sil [] rest (fun f => f) Hsil).
  rewrite Hnp. change (Qeq_bool 0 0) with true. cbv iota.
  unfold take_idx. cbn [mapM nth_error List.length bind map app].
  replace (0 <? d) with true by (symmetry; apply Z.ltb_lt; lia).
  replace (d - 0) with d by lia.
  unfold select_trim.
  replace (d =? 0) with false by (symmetry; apply Z.eqb_neq; lia).
  replace (d =? d + 1 - 1) with true by (symmetry; apply Z.eqb_eq; lia).
  cbn [bind read trim_end trim_start].
  assert (Hte : forall z, z < 0 ->
                match PyInt z with
                | PyInt 0 => PyNone
                | _ => PyInt z
                end = PyInt z).
  { intros [| q | q] Hz; try reflexivity. lia. }
  rewrite (Hte (- d)) by lia. clear Hte. cbn [bound_of].
  rewrite (py_slice_prefix (d + sum dr)) by lia.
  assert (Hlen : len (firstn (Z.to_nat (d + sum dr)) mel) = d + sum dr).
  { unfold len in *. rewrite length_firstn. lia. }
  rewrite py_slice_drop_last by lia. rewrite Hlen.
  rewrite firstn_firstn.
  replace (Nat.min (Z.to_nat (d + sum dr - d)) (Z.to_nat (d + sum dr)))
    with (Z.to_nat (sum dr)) by lia.
  change (negb (String.eqb "sil" "sil")
          :: map (fun s => negb (String.eqb s "sil")) rest)
    with (map (fun s => negb (String.eqb s "sil")) ("sil" :: rest)).
  rewrite (mask_select_keep_lead rest "sil" rest Hsil eq_refl).
  cbn [bind map2 put set_nth].
  rewrite (mask_select_keep_lead rest (d - d) dr Hsil Hdr).
  cbn [bind].
  replace (len (firstn (Z.to_nat (sum dr)) mel) =? sum dr) with true
    by (symmetry; apply Z.eqb_eq; unfold len in *;
        rewrite length_firstn; lia).
  cbn [assert_ bind].
  rewrite (mask_select_keep_lead rest p0 pr Hsil Hpr).
  cbn [bind].
  replace (len pr =? len dr) with true
    by (symmetry; apply Z.eqb_eq; unfold len; now rewrite Hpr, Hdr).
  reflexivity.
Qed.

Lemma trim_leading_silence_cuts_the_end_witness :
  trim_utterance 0 0 (10 + 1) unbound
    (mk_utterance "utt" ("sil" :: ["a"; "b"]) (10 :: [5; 7])
       (map Z.of_nat (seq 0 22)) (10 + sum [5; 7]) (Some (0 :: [1; 2])))
  = Ok (mk_trimmed ["a"; "b"]
          (firstn (Z.to_nat (sum [5; 7])) (map Z.of_nat (seq 0 22)))
          [5; 7] [1; 2],
        mk_trim_vars (Some PyNone) (Some (PyInt (- 10)))).
Proof.
  apply (trim_leading_silence_cuts_the_end Z Z unbound "utt" ["a"; "b"] 10
           [5; 7] (map Z.of_nat (seq 0 22)) 0 [1; 2]).
  - cbn. intros [H | [H | []]]; discriminate H.
  - reflexivity.
  - reflexivity.
  - lia.
  - cbn. lia.
  - cbn. lia.
Defined.

(** ** PitchExtractor *)

(** [maybe_pad] fails when the length is off by more than three.  Otherwise
    it cuts or zero-pads the vector to [l] entries; a negative [l] is read
    by the slice as counting from the end and nothing is padded. *)
Theorem maybe_pad_spec :
  forall (A : Type) (zero : A) (vec : list A) (l : Z),
    (3 < Z.abs (len vec - l) ->
     maybe_pad zero vec l = Raise (AssertionError EmptyString))
    /\ (Z.abs (len vec - l) <= 3 -> 0 <= l ->
        exists out,
          maybe_pad zero vec l = Ok out
          /\ out = firstn (Z.to_nat l) vec
                   ++ repeat zero (Z.to_nat (l - len vec))
          /\ len out = l)
    /\ (Z.abs (len vec - l) <= 3 -> l < 0 ->
        maybe_pad zero vec l = Ok (firstn (Z.to_nat (len vec + l)) vec)).
Proof.
  intros A zero vec l. unfold maybe_pad. split; [| split].
  - intros H. destruct (Z.leb_spec (Z.abs (len vec - l)) 3); [lia |].
    reflexivity.
  - intros H Hl. destruct (Z.leb_spec (Z.abs (len vec - l)) 3); [| lia].
    cbn [assert_ bind]. rewrite py_slice_prefix by exact Hl.
    assert (Hlen : len (firstn (Z.to_nat l) vec) = Z.min l (len vec)).
    { unfold len. rewrite length_firstn. lia. }
    rewrite Hlen.
    destruct (Z.ltb_spec (Z.min l (len vec)) l) as [Hlt | Hge].
    + eexists. split; [reflexivity |].
      replace (Z.min l (len vec)) with (len vec) by lia.
      split; [reflexivity |].
      rewrite len_app, len_repeat, Hlen. lia.
    + eexists. split; [reflexivity |].
      replace (Z.to_nat (l - len vec)) with 0%nat by lia.
      cbn [repeat]. rewrite app_nil_r.
      split; [reflexivity | rewrite Hlen; lia].
  - intros H Hl. destruct (Z.leb_spec (Z.abs (len vec - l)) 3); [| lia].
    cbn [assert_ bind].
    assert (Hs : py_slice None (Some l) vec
                 = firstn (Z.to_nat (len vec + l)) vec).
    { unfold py_slice, norm_index.
      destruct (Z.ltb_spec l 0); [| lia].
      cbn [Z.to_nat skipn]. f_equal.
      pose proof (len_nonneg vec). lia. }
    rewrite Hs.
    destruct (Z.ltb_spec (len (firstn (Z.to_nat (len vec + l)) vec)) l)
      as [Hlt | Hge]; [| reflexivity].
    pose proof (len_nonneg (firstn (Z.to_nat (len vec + l)) vec)). lia.
Qed.

Lemma maybe_pad_spec_witness :
  exists out,
    maybe_pad 0 [1; 2] 4 = Ok out
    /\ out = firstn (Z.to_nat 4) [1; 2]
             ++ repeat 0 (Z.to_nat (4 - len [1; 2]))
    /\ len out = 4.
Proof.
  apply (proj1 (proj2 (maybe_pad_spec Z 0 [1; 2] 4))); cbn; lia.
Defined.

Lemma maybe_pad_same {A : Type} (zero : A) (vec : list A) :
  maybe_pad zero vec (len vec) = Ok vec.
Proof.
  unfold maybe_pad. rewrite Z.sub_diag. cbn [Z.abs Z.leb Z.compare].
  cbn [assert_ bind]. rewrite py_slice_whole, Z.ltb_irrefl. reflexivity.
Qed.

Lemma set_nth_length {A : Type} (v : A) (l : list A) :
  forall i, List.length (set_nth i v l) = List.length l.
Proof.
  induction l as [| x l IH]; intros [| i]; cbn [set_nth List.length]; auto.
Qed.

Lemma nth_error_set_nth {A : Type} (v : A) (l : list A) :
  forall i j,
    nth_error (set_nth i v l) j
    = if (j =? i)%nat && (i <? List.length l)%nat then Some v
      else nth_error l j.
Proof.
  induction l as [| x l IH]; intros i j.
  - destruct i; cbn [set_nth List.length]; rewrite andb_false_r;
      reflexivity.
  - destruct i as [| i], j as [| j]; cbn [set_nth nth_error]; try reflexivity.
    rewrite IH. cbn [List.length].
    change (S j =? S i)%nat with (j =? i)%nat.
    change (S i <? S (List.length l))%nat with (i <? List.length l)%nat.
    reflexivity.
Qed.

(** The averaging loop, read entry by entry: turn [i] writes entry [s + i]
    from the [i]-th pair of bounds, as long as there are turns and pairs. *)
Lemma average_fold (pitch : list Q) (ab : list (Z * Z)) :
  forall (s k : nat) (out : list Q) (i : nat),
    (i < List.length out)%nat ->
    nth_error
      (fold_left
         (fun acc (it : nat * (Z * Z)) =>
            let '(idx, (a, b)) := it in
            set_nth idx (voiced_mean pitch a b) acc)
         (combine (seq s k) ab) out) i
    = if (s <=? i)%nat && (i <? s + Nat.min k (List.length ab))%nat
      then Some (voiced_mean pitch (fst (nth (i - s) ab (0, 0)))
                             (snd (nth (i - s) ab (0, 0))))
      else nth_error out i.
Proof.
  induction ab as [| [a b] ab IH]; intros s k out i Hi.
  - rewrite combine_nil. cbn [fold_left List.length].
    rewrite Nat.min_0_r, Nat.add_0_r.
    destruct (Nat.leb_spec s i), (Nat.ltb_spec i s); try reflexivity; lia.
  - destruct k as [| k].
    + cbn [seq combine fold_left Nat.min]. rewrite Nat.add_0_r.
      destruct (Nat.leb_spec s i), (Nat.ltb_spec i s); try reflexivity; lia.
    + cbn [seq combine fold_left List.length].
      rewrite IH by (rewrite set_nth_length; exact Hi).
      rewrite nth_error_set_nth.
      change (Nat.min (S k) (S (List.length ab)))
        with (S (Nat.min k (List.length ab))).
      destruct (Nat.leb_spec (S s) i) as [H1 | H1];
        destruct (Nat.leb_spec s i) as [H2 | H2]; try lia;
        cbn [andb].
      * replace (i <? s + S (Nat.min k (List.length ab)))%nat
          with (i <? S s + Nat.min k (List.length ab))%nat
          by (destruct (Nat.ltb_spec i (S s + Nat.min k (List.length ab))),
                (Nat.ltb_spec i (s + S (Nat.min k (List.length ab))));
              try reflexivity; lia).
        destruct (i <? S s + Nat.min k (List.length ab))%nat.
        -- replace (i - s)%nat with (S (i - S s)) by lia. reflexivity.
        -- destruct (Nat.eqb_spec i s); [lia | reflexivity].
      * assert (i = s) by lia. subst i.
        rewrite Nat.eqb_refl, Nat.sub_diag.
        destruct (Nat.ltb_spec s (List.length out)); [| lia].
        destruct (Nat.ltb_spec s (s + S (Nat.min k (List.length ab))));
          [reflexivity | lia].
      * destruct (Nat.eqb_spec i s); [lia | reflexivity].
Qed.

Lemma average_over_length (pitch : list Q) (n : Z) (cum : list Z)
    (out : list Q) :
  List.length (average_over pitch n cum out) = List.length out.
Proof.
  unfold average_over.
  generalize (combine (py_range n)
                (combine (py_slice None (Some (- 1)) cum)
                         (py_slice (Some 1) None cum))).
  intros its. revert out.
  induction its as [| [idx [a b]] its IH]; intros out; [reflexivity |].
  cbn [fold_left]. rewrite IH. apply set_nth_length.
Qed.

Lemma cumsum_from_length (l : list Z) :
  forall acc, List.length (cumsum_from acc l) = List.length l.
Proof. induction l as [| d l IH]; intros acc; cbn; auto. Qed.

Lemma bounds_from_length (l : list Z) :
  forall acc, List.length (bounds_from acc l) = List.length l.
Proof. induction l as [| d l IH]; intros acc; cbn; auto. Qed.

Lemma cumsum_bounds (l : list Z) :
  forall acc,
    combine (firstn (List.length l) (acc :: cumsum_from acc l))
            (cumsum_from acc l)
    = bounds_from acc l.
Proof.
  induction l as [| d l IH]; intros acc; [reflexivity |].
  cbn [List.length cumsum_from firstn combine bounds_from].
  f_equal. apply IH.
Qed.

Lemma sum_firstn_succ (l : list Z) :
  forall i d,
    nth_error l i = Some d ->
    sum (firstn (S i) l) = sum (firstn i l) + d.
Proof.
  induction l as [| x l IH]; intros [| i] d H; try discriminate H.
  - injection H as ->. cbn. lia.
  - cbn [nth_error] in H.
    change (sum (firstn (S (S i)) (x :: l)))
      with (x + sum (firstn (S i) l)).
    change (sum (firstn (S i) (x :: l))) with (x + sum (firstn i l)).
    rewrite (IH i d H). lia.
Qed.

Lemma bounds_from_nth (l : list Z) :
  forall acc i d,
    nth_error l i = Some d ->
    nth i (bounds_from acc l) (0, 0)
    = (acc + sum (firstn i l), acc + sum (firstn i l) + d).
Proof.
  induction l as [| x l IH]; intros acc [| i] d H; try discriminate H.
  - injection H as ->. cbn. f_equal; lia.
  - cbn [nth_error] in H. cbn [bounds_from nth].
    rewrite (IH (acc + x) i d H).
    change (sum (firstn (S i) (x :: l))) with (x + sum (firstn i l)).
    f_equal; lia.
Qed.

(** The bounds that the loop takes from [cum[:-1]] and [cum[1:]]. *)
Lemma cumsum_pad_bounds (l : list Z) :
  combine (py_slice None (Some (- 1)) (cumsum_pad l))
          (py_slice (Some 1) None (cumsum_pad l))
  = bounds_from 0 l.
Proof.
  unfold cumsum_pad. cbn [cumsum_from Z.add].
  assert (Hlen : len (0 :: cumsum_from 0 l) = Z.of_nat (List.length l) + 1).
  { unfold len. cbn [List.length]. rewrite cumsum_from_length. lia. }
  change (py_slice None (Some (- 1)) (0 :: cumsum_from 0 l))
    with (py_slice None (Some (- (1))) (0 :: cumsum_from 0 l)).
  rewrite (py_slice_drop_last (0 :: cumsum_from 0 l) 1) by lia.
  rewrite Hlen.
  replace (Z.to_nat (Z.of_nat (List.length l) + 1 - 1))
    with (List.length l) by lia.
  assert (Htl : py_slice (Some 1) None (0 :: cumsum_from 0 l)
                = cumsum_from 0 l).
  { unfold py_slice, norm_index. rewrite Hlen.
    cbn [Z.ltb Z.compare].
    rewrite Z.min_l by lia. cbn [Z.to_nat Pos.to_nat Pos.iter_op skipn].
    apply firstn_all2. rewrite cumsum_from_length. lia. }
  rewrite Htl. apply cumsum_bounds.
Qed.

(** The averaging loop over cumulated durations: entry [i] is the mean of
    the voiced frames of segment [i] if the loop gets as far as [i], and
    stays 0.0 otherwise. *)
Lemma average_over_cumsum (pitch : list Q) (n : Z) (l : list Z) (i : nat)
    (d : Z) :
  nth_error l i = Some d ->
  nth_error (average_over pitch n (cumsum_pad l)
               (repeat 0%Q (List.length l))) i
  = Some (if Z.of_nat i <? n
          then voiced_mean pitch (sum (firstn i l)) (sum (firstn i l) + d)
          else 0%Q).
Proof.
  intros H.
  assert (Hi : (i < List.length l)%nat) by (apply nth_error_Some; congruence).
  unfold average_over, py_range. rewrite cumsum_pad_bounds.
  rewrite average_fold by (rewrite repeat_length; exact Hi).
  rewrite bounds_from_length, Nat.sub_0_r, (bounds_from_nth l 0 i d H).
  cbn [fst snd Nat.leb andb Nat.add].
  destruct (Nat.ltb_spec i (Nat.min (Z.to_nat n) (List.length l)));
    destruct (Z.ltb_spec (Z.of_nat i) n); try lia.
  - do 2 f_equal; lia.
  - rewrite nth_error_repeat by exact Hi. reflexivity.
Qed.

Lemma mapM_map_ok {A B : Type} (f : A -> result B) (g : A -> B)
    (l : list A) :
  (forall x, f x = Ok (g x)) -> mapM f l = Ok (map g l).
Proof.
  intros H. induction l as [| x l IH]; [reflexivity |].
  cbn [mapM map]. rewrite H, IH. reflexivity.
Qed.

Lemma dur_chunk_sizes_thirds (d : Z) :
  dur_chunk_sizes_int64 d 3 = Ok (thirds d).
Proof. apply dur_chunk_sizes_int64_ok. lia. Qed.

Lemma thirds_length (d : Z) : List.length (thirds d) = 3%nat.
Proof.
  unfold thirds. rewrite length_app, !repeat_length.
  pose proof (Z.mod_pos_bound d 3 ltac:(lia)). lia.
Qed.

Lemma thirds_sum (d : Z) : sum (thirds d) = d.
Proof. apply chunk_array_sum. lia. Qed.

Lemma concat_thirds_length (durs : list Z) :
  List.length (List.concat (map thirds durs)) = (3 * List.length durs)%nat.
Proof.
  induction durs as [| d durs IH]; [reflexivity |].
  cbn [map List.concat List.length].
  rewrite length_app, thirds_length, IH. lia.
Qed.

Lemma maybe_pad_returns {A : Type} (zero : A) (vec : list A) (l : Z) :
  Z.abs (len vec - l) <= 3 -> exists out, maybe_pad zero vec l = Ok out.
Proof.
  intros H. unfold maybe_pad.
  destruct (Z.leb_spec (Z.abs (len vec - l)) 3); [| lia].
  cbn [assert_ bind].
  destruct (len (py_slice None (Some l) vec) <? l); eexists; reflexivity.
Qed.

(** What [calculate_pitch] returns when its assertion holds and there is a
    duration at all. *)
Lemma calculate_pitch_ok (pitch : list Q) (durs : list Z) :
  durs <> [] -> Z.abs (sum durs - len pitch) <= 1 ->
  exists pitch_mel,
    maybe_pad 0%Q pitch (sum durs) = Ok pitch_mel
    /\ calculate_pitch pitch durs
       = Ok (pitch_mel,
             average_over pitch (sum durs) (cumsum_pad durs)
               (repeat 0%Q (List.length durs)),
             average_over pitch (3 * sum durs)
               (cumsum_pad (List.concat (map thirds durs)))
               (repeat 0%Q (3 * List.length durs))).
Proof.
  intros Hne Habs.
  destruct (maybe_pad_returns 0%Q pitch (sum durs) ltac:(lia)) as [pm Hpm].
  exists pm. split; [exact Hpm |].
  unfold calculate_pitch.
  destruct (Z.leb_spec (Z.abs (sum durs - len pitch)) 1); [| lia].
  cbn [assert_ bind].
  rewrite (mapM_map_ok _ thirds durs dur_chunk_sizes_thirds).
  cbn [bind].
  destruct durs as [| d0 durs']; [congruence |].
  set (durs := d0 :: durs') in *.
  change (np_concatenate (map thirds durs))
    with (Ok (A := list Z) (List.concat (map thirds durs))).
  cbn [bind]. rewrite Hpm. cbn [bind].
  set (pc := average_over pitch (sum durs) (cumsum_pad durs)
               (repeat 0%Q (List.length durs))).
  set (pt := average_over pitch (3 * sum durs)
               (cumsum_pad (List.concat (map thirds durs)))
               (repeat 0%Q (3 * List.length durs))).
  replace (len durs) with (len pc)
    by (unfold len, pc; now rewrite average_over_length, repeat_length).
  rewrite maybe_pad_same. cbn [bind].
  replace (len (List.concat (map thirds durs))) with (len pt)
    by (unfold len, pt;
        now rewrite average_over_length, repeat_length, concat_thirds_length).
  rewrite maybe_pad_same. reflexivity.
Qed.

Lemma maybe_pad_cut_or_pad {A : Type} (zero : A) (vec : list A) (l : Z) :
  Z.abs (len vec - l) <= 3 -> 0 <= l ->
  maybe_pad zero vec l
  = Ok (firstn (Z.to_nat l) vec ++ repeat zero (Z.to_nat (l - len vec))).
Proof.
  intros H Hl. unfold maybe_pad.
  destruct (Z.leb_spec (Z.abs (len vec - l)) 3); [| lia].
  cbn [assert_ bind]. rewrite py_slice_prefix by exact Hl.
  assert (Hlen : len (firstn (Z.to_nat l) vec) = Z.min l (len vec)).
  { unfold len. rewrite length_firstn. lia. }
  rewrite Hlen.
  destruct (Z.ltb_spec (Z.min l (len vec)) l) as [Hlt | Hge].
  - replace (Z.min l (len vec)) with (len vec) by lia. reflexivity.
  - replace (Z.to_nat (l - len vec)) with 0%nat by lia.
    cbn [repeat]. now rewrite app_nil_r.
Qed.

Lemma calculate_pitch_inv (pitch : list Q) (durs : list Z)
    (r : list Q * list Q * list Q) :
  calculate_pitch pitch durs = Ok r ->
  durs <> [] /\ Z.abs (sum durs - len pitch) <= 1.
Proof.
  unfold calculate_pitch. intros H.
  destruct (Z.leb_spec (Z.abs (sum durs - len pitch)) 1);
    [| discriminate H].
  split; [| assumption]. intros ->. discriminate H.
Qed.

(** [calculate_pitch] needs a pitch track as long as the durations sum up
    to, give or take one frame, and at least one duration.  It then returns
    the track cut or zero-padded to that sum, one value per duration and
    three values per duration. *)
Theorem calculate_pitch_returns :
  forall (pitch : list Q) (durs : list Z),
    (1 < Z.abs (sum durs - len pitch) ->
     calculate_pitch pitch durs = Raise (AssertionError EmptyString))
    /\ (Z.abs (sum durs - len pitch) <= 1 -> durs = [] ->
        calculate_pitch pitch durs
        = Raise (ValueError "need at least one array to concatenate"))
    /\ (Z.abs (sum durs - len pitch) <= 1 -> durs <> [] ->
        exists pitch_mel pitch_char pitch_trichar,
          calculate_pitch pitch durs
          = Ok (pitch_mel, pitch_char, pitch_trichar)
          /\ len pitch_char = len durs
          /\ len pitch_trichar = 3 * len durs
          /\ (0 <= sum durs ->
              pitch_mel
              = firstn (Z.to_nat (sum durs)) pitch
                ++ repeat 0%Q (Z.to_nat (sum durs - len pitch)))).
Proof.
  intros pitch durs. split; [| split].
  - intros H. unfold calculate_pitch.
    destruct (Z.leb_spec (Z.abs (sum durs - len pitch)) 1); [lia |].
    reflexivity.
  - intros H ->. unfold calculate_pitch.
    destruct (Z.leb_spec (Z.abs (sum [] - len pitch)) 1); [| lia].
    reflexivity.
  - intros H Hne.
    destruct (calculate_pitch_ok pitch durs Hne H) as (pm & Hpm & Hcp).
    do 3 eexists. split; [exact Hcp |].
    split.
    { unfold len. now rewrite average_over_length, repeat_length. }
    split.
    { unfold len. rewrite average_over_length, repeat_length. lia. }
    intros Hs.
    rewrite maybe_pad_cut_or_pad in Hpm by lia.
    injection Hpm as <-. reflexivity.
Qed.

Lemma calculate_pitch_returns_witness :
  exists pitch_mel pitch_char pitch_trichar,
    calculate_pitch [100%Q; 0%Q; 200%Q; 0%Q] [2; 0; 3]
    = Ok (pitch_mel, pitch_char, pitch_trichar)
    /\ len pitch_char = len [2; 0; 3]
    /\ len pitch_trichar = 3 * len [2; 0; 3]
    /\ (0 <= sum [2; 0; 3] ->
        pitch_mel
        = firstn (Z.to_nat (sum [2; 0; 3])) [100%Q; 0%Q; 200%Q; 0%Q]
          ++ repeat 0%Q
               (Z.to_nat (sum [2; 0; 3] - len [100%Q; 0%Q; 200%Q; 0%Q]))).
Proof.
  apply (proj2 (proj2 (calculate_pitch_returns
                         [100%Q; 0%Q; 200%Q; 0%Q] [2; 0; 3]))).
  - cbn. lia.
  - discriminate.
Defined.

Lemma len_le_sum (durs : list Z) :
  Forall (fun d => 1 <= d) durs -> len durs <= sum durs.
Proof.
  induction 1 as [| d durs Hd _ IH]; [reflexivity |].
  change (sum (d :: durs)) with (d + sum durs).
  unfold len in *. cbn [List.length]. lia.
Qed.

Lemma np_where_select {A : Type} (d : A) (p : A -> bool) (v : list A) :
  forall pre : list A,
    map (fun i => nth i (pre ++ v) d) (np_where_from p (List.length pre) v)
    = filter p v.
Proof.
  induction v as [| x r IH]; intros pre; [reflexivity |].
  cbn [np_where_from filter].
  assert (Hpre : pre ++ x :: r = (pre ++ [x]) ++ r)
    by now rewrite <- app_assoc.
  assert (Hlen : S (List.length pre) = List.length (pre ++ [x]))
    by (rewrite length_app; cbn; lia).
  destruct (p x).
  - cbn [map]. rewrite nth_middle. f_equal.
    rewrite Hpre, Hlen. apply IH.
  - rewrite Hpre, Hlen. apply IH.
Qed.

(** The window [l[a:a+d]] of a forward slice. *)
Lemma py_slice_window {A : Type} (l : list A) (a d : Z) :
  0 <= a -> 0 <= d ->
  py_slice (Some a) (Some (a + d)) l
  = firstn (Z.to_nat d) (skipn (Z.to_nat a) l).
Proof.
  intros Ha Hd. unfold py_slice, norm_index.
  destruct (Z.ltb_spec a 0); [lia |].
  destruct (Z.ltb_spec (a + d) 0); [lia |].
  pose proof (len_nonneg l) as Hl.
  destruct (Z.le_gt_cases a (len l)) as [Hle | Hgt].
  - rewrite (Z.min_l a) by lia.
    destruct (Z.le_gt_cases (a + d) (len l)) as [Hle' | Hgt'].
    + rewrite Z.min_l by lia. f_equal. lia.
    + rewrite Z.min_r by lia.
      rewrite !firstn_all2; [reflexivity | |];
        rewrite length_skipn; unfold len in *; lia.
  - rewrite !Z.min_r by lia.
    rewrite !skipn_all2 by (unfold len in *; lia).
    now rewrite !firstn_nil.
Qed.

(** The value that the loop stores for a window: the mean of its non-zero
    frames, or 0.0 when it has none. *)
Lemma voiced_mean_window (pitch : list Q) (a d : Z) :
  0 <= a -> 0 <= d ->
  voiced_mean pitch a (a + d)
  = let voiced :=
      filter (fun x => negb (Qeq_bool x 0))
             (firstn (Z.to_nat d) (skipn (Z.to_nat a) pitch)) in
    if 0 <? len voiced
    then (Qsum voiced / inject_Z (len voiced))%Q
    else 0%Q.
Proof.
  intros Ha Hd. unfold voiced_mean, np_where.
  rewrite py_slice_window by assumption.
  set (seg := firstn (Z.to_nat d) (skipn (Z.to_nat a) pitch)).
  pose proof (np_where_select 0%Q (fun x => negb (Qeq_bool x 0)) seg [])
    as E.
  cbn [app List.length] in E. cbv zeta. rewrite E. reflexivity.
Qed.

Lemma sum_firstn_nonneg (durs : list Z) :
  Forall (fun d => 0 <= d) durs -> forall i, 0 <= sum (firstn i durs).
Proof.
  induction 1 as [| d durs Hd _ IH]; intros [| i]; cbn [firstn];
    try (cbn; lia).
  change (sum (d :: firstn i durs)) with (d + sum (firstn i durs)).
  specialize (IH i). lia.
Qed.

(** The per-symbol pitch, for durations that are not negative.  The value of
    symbol [i], of duration [d], is the mean of the non-zero entries among
    the [d] frames of the pitch track that follow the frames of the earlier
    symbols, and 0.0 when these are all zero, provided [i] is smaller than
    the number of frames; the loop takes no more turns than there are
    frames, so a symbol at a later position keeps 0.0.  When each duration
    is at least 1 every symbol is reached. *)
Theorem calculate_pitch_char_values :
  forall (pitch : list Q) (durs : list Z)
         (pitch_mel pitch_char pitch_trichar : list Q) (i : nat) (d : Z),
    calculate_pitch pitch durs = Ok (pitch_mel, pitch_char, pitch_trichar) ->
    Forall (fun d => 0 <= d) durs ->
    nth_error durs i = Some d ->
    let voiced :=
      filter (fun x => negb (Qeq_bool x 0))
             (firstn (Z.to_nat d)
                     (skipn (Z.to_nat (sum (firstn i durs))) pitch)) in
    let mean :=
      if 0 <? len voiced
      then (Qsum voiced / inject_Z (len voiced))%Q
      else 0%Q in
    nth_error pitch_char i
    = Some (if Z.of_nat i <? sum durs then mean else 0%Q)
    /\ (Forall (fun d => 1 <= d) durs -> nth_error pitch_char i = Some mean).
Proof.
  intros pitch durs pm pc pt i d H Hnn Hi voiced mean.
  destruct (calculate_pitch_inv pitch durs _ H) as [Hne Habs].
  destruct (calculate_pitch_ok pitch durs Hne Habs) as (pm' & _ & Hcp).
  rewrite Hcp in H. injection H as _ <- _.
  pose proof (average_over_cumsum pitch (sum durs) durs i d Hi) as Hv.
  assert (Hd : 0 <= d).
  { rewrite Forall_forall in Hnn. apply Hnn.
    exact (nth_error_In durs i Hi). }
  rewrite (voiced_mean_window pitch (sum (firstn i durs)) d
             (sum_firstn_nonneg durs Hnn i) Hd) in Hv.
  cbv zeta in Hv. fold voiced in Hv. fold mean in Hv.
  split; [exact Hv |].
  intros Hpos. rewrite Hv.
  assert (Hlt : (i < List.length durs)%nat)
    by (apply nth_error_Some; congruence).
  pose proof (len_le_sum durs Hpos). unfold len in *.
  destruct (Z.ltb_spec (Z.of_nat i) (sum durs)); [reflexivity | lia].
Qed.

(** Two symbols of 2 and 3 frames over the track 100, 0, 200, 0, 300: the
    second symbol gets the mean of 200 and 300. *)
Lemma calculate_pitch_char_values_witness :
  calculate_pitch [100%Q; 0%Q; 200%Q; 0%Q; 300%Q] [2; 3]
  = Ok ([100%Q; 0%Q; 200%Q; 0%Q; 300%Q],
        [(100 # 1)%Q; (500 # 2)%Q],
        [(100 # 1)%Q; 0%Q; 0%Q; (200 # 1)%Q; 0%Q; (300 # 1)%Q])
  /\ nth_error [(100 # 1)%Q; (500 # 2)%Q] 1 = Some (500 # 2)%Q.
Proof.
  assert (H : calculate_pitch [100%Q; 0%Q; 200%Q; 0%Q; 300%Q] [2; 3]
              = Ok ([100%Q; 0%Q; 200%Q; 0%Q; 300%Q],
                    [(100 # 1)%Q; (500 # 2)%Q],
                    [(100 # 1)%Q; 0%Q; 0%Q; (200 # 1)%Q; 0%Q; (300 # 1)%Q]))
    by (vm_compute; reflexivity).
  split; [exact H |].
  exact (proj2 (calculate_pitch_char_values
                  [100%Q; 0%Q; 200%Q; 0%Q; 300%Q] [2; 3] _ _ _ 1%nat 3 H
                  ltac:(repeat constructor; lia) eq_refl)
           ltac:(repeat constructor; lia)).
Defined.

Lemma sum_concat_thirds (durs : list Z) :
  sum (List.concat (map thirds durs)) = sum durs.
Proof.
  induction durs as [| d durs IH]; [reflexivity |].
  cbn [map List.concat]. rewrite sum_app, thirds_sum, IH. reflexivity.
Qed.

Lemma firstn_concat_thirds (durs : list Z) :
  forall i : nat,
    firstn (3 * i) (List.concat (map thirds durs))
    = List.concat (map thirds (firstn i durs)).
Proof.
  induction durs as [| d durs IH]; intros i.
  - cbn [map List.concat]. now rewrite !firstn_nil.
  - destruct i as [| i]; [reflexivity |].
    cbn [map List.concat firstn].
    replace (3 * S i)%nat with (List.length (thirds d) + 3 * i)%nat
      by (rewrite thirds_length; lia).
    rewrite firstn_app_2, IH. reflexivity.
Qed.

(** The three values per symbol: each duration is split by
    [dur_chunk_sizes] into three parts, the parts of symbol [i] cover the
    frames of symbol [i], and value [k] is the mean of the voiced frames of
    part [k] (0.0 if none is voiced) as long as [k] is smaller than three
    times the number of frames; a later part keeps 0.0. *)
Theorem calculate_pitch_trichar_values :
  forall (pitch : list Q) (durs : list Z)
         (pitch_mel pitch_char pitch_trichar : list Q),
    calculate_pitch pitch durs = Ok (pitch_mel, pitch_char, pitch_trichar) ->
    exists chunks,
      mapM (fun d => dur_chunk_sizes_int64 d 3) durs = Ok chunks
      /\ (forall i : nat,
             sum (firstn (3 * i) (List.concat chunks))
             = sum (firstn i durs))
      /\ forall (k : nat) (c : Z),
           nth_error (List.concat chunks) k = Some c ->
           nth_error pitch_trichar k
           = Some (if Z.of_nat k <? 3 * sum durs
                   then voiced_mean pitch
                          (sum (firstn k (List.concat chunks)))
                          (sum (firstn k (List.concat chunks)) + c)
                   else 0%Q).
Proof.
  intros pitch durs pm pc pt H.
  destruct (calculate_pitch_inv pitch durs _ H) as [Hne Habs].
  destruct (calculate_pitch_ok pitch durs Hne Habs) as (pm' & _ & Hcp).
  rewrite Hcp in H. injection H as _ _ <-.
  exists (map thirds durs).
  split; [apply mapM_map_ok; exact dur_chunk_sizes_thirds |].
  split.
  - intros i. rewrite firstn_concat_thirds. apply sum_concat_thirds.
  - intros k c Hk.
    pose proof (average_over_cumsum pitch (3 * sum durs)
                  (List.concat (map thirds durs)) k c Hk) as Hv.
    rewrite concat_thirds_length in Hv. exact Hv.
Qed.

Lemma calculate_pitch_trichar_values_witness :
  exists chunks,
    mapM (fun d => dur_chunk_sizes_int64 d 3) [2; 0; 3] = Ok chunks
    /\ (forall i : nat,
           sum (firstn (3 * i) (List.concat chunks))
           = sum (firstn i [2; 0; 3]))
    /\ forall (k : nat) (c : Z),
         nth_error (List.concat chunks) k = Some c ->
         nth_error
           [100%Q; 0%Q; 0%Q; 0%Q; 0%Q; 0%Q; 200%Q; 0%Q; 0%Q] k
         = Some (if Z.of_nat k <? 3 * sum [2; 0; 3]
                 then voiced_mean [100%Q; 0%Q; 200%Q; 0%Q; 0%Q]
                        (sum (firstn k (List.concat chunks)))
                        (sum (firstn k (List.concat chunks)) + c)
                 else 0%Q).
Proof.
  apply (calculate_pitch_trichar_values
           [100%Q; 0%Q; 200%Q; 0%Q; 0%Q] [2; 0; 3]
           [100%Q; 0%Q; 200%Q; 0%Q; 0%Q] [100%Q; 0%Q; 200%Q]).
  vm_compute. reflexivity.
Defined.

(** ** Attention strategy on a padded batch *)

(** The matrices of a batch are padded to the longest utterance.  On the
    GPU, for an utterance of [mel_len] frames and [T >= 1] symbols whose
    matrix has at least [mel_len] rows, none of them empty, the durations
    are [T] non-negative counts that sum to [mel_len]: rows and columns of
    the padding are cut away first and do not count.  On the CPU the same
    utterance gets no durations, the histogram being refused. *)
Theorem attention_durations_padded :
  forall (ali : list (list Q)) (mel_len T : Z),
    1 <= T -> 0 <= mel_len <= len ali ->
    Forall (fun r => r <> []) ali ->
    (exists durs,
        attention_durations Cuda ali mel_len T = Ok durs
        /\ len durs = T
        /\ sum durs = mel_len
        /\ Forall (fun d => 0 <= d) durs)
    /\ attention_durations Cpu ali mel_len T
       = Raise (RuntimeError "histogram_cpu not implemented for Long").
Proof.
  intros ali mel_len T HT Hm Hrows. split.
  - destruct (attention_durations_returns ali mel_len T HT (proj1 Hm) Hrows)
      as [durs Hd].
    exists durs. split; [exact Hd |].
    exact (attention_durations_sum ali mel_len T durs Hm Hd).
  - exact (attention_durations_cpu ali mel_len T HT (proj1 Hm) Hrows).
Qed.

Lemma attention_durations_padded_witness :
  (exists durs,
      attention_durations Cuda
        [[1%Q; 0%Q; 0%Q]; [0%Q; 1%Q; 0%Q]; [0%Q; 1%Q; 0%Q]; [0%Q; 0%Q; 1%Q]]
        3 2
      = Ok durs
      /\ len durs = 2
      /\ sum durs = 3
      /\ Forall (fun d => 0 <= d) durs)
  /\ attention_durations Cpu
       [[1%Q; 0%Q; 0%Q]; [0%Q; 1%Q; 0%Q]; [0%Q; 1%Q; 0%Q]; [0%Q; 0%Q; 1%Q]]
       3 2
     = Raise (RuntimeError "histogram_cpu not implemented for Long").
Proof.
  apply attention_durations_padded.
  - lia.
  - cbn. lia.
  - repeat constructor; discriminate.
Defined.

(** ** PitchNormalizer: what the transform does to the pool *)

Section PitchNormalizerStandard.
Local Open Scope R_scope.




End PitchNormalizerStandard.

(** ** Instances of the characterisations above *)

Lemma unit_durations_returns_iff_witness :
  (exists out, unit_durations "utt" [7; 7; 3] 4 = Ok out)
  /\ unit_durations "utt" [7] 4 = Raise (UnboundLocalError "u1").
Proof.
  split.
  - apply (proj2 (proj1 (unit_durations_returns_iff "utt" [7; 7; 3] 4))).
    simpl. lia.
  - apply (proj2 (unit_durations_returns_iff "utt" [7] 4)). simpl. lia.
Defined.

Lemma startup_accepts_iff_witness :
  startup (mk_args false false false false true false None 22050 256) []
  = Raise (AssertionError "Durations required for pitch extraction").
Proof.
  apply (proj2 (proj2 (startup_accepts_iff
                         (mk_args false false false false true false None
                                  22050 256) [])));
    reflexivity.
Defined.

